(** * A generic FIFO queue over a Go slice (package queue, queue.go)

    The queue is a struct with one field, [data []T].  A Go slice is a
    header (pointer, length, capacity) into a backing array that other
    headers may share, a [*Queue[T]] is a pointer to the struct.  Both
    kinds of sharing are modelled: the store holds the backing arrays and
    the queue structs, the methods are programs in a state monad over that
    store whose failure is a run-time panic.

    Layout.  Definitions: the element type and the run-time, the store,
    the monad, the slice built-ins and the functions of packages slices
    and fmt that queue.go calls, the functions of queue.go, the invariant
    of the store, client programs, the tests of queue_test.go.  Proofs:
    facts on the invariant, the steps of the run-time, a specification for
    every method, the properties of the package. *)

From Stdlib Require Import ZArith Lia DecimalString.
From stdpp Require Import base tactics option list numbers strings.

Set Default Proof Using "Type*".

(** ** Element type and run-time *)

(** What [Queue[T comparable]] uses of [T]: its zero value ([var zero T]),
    the operator [==] and the text that the verb [%v] of package fmt gives a
    value.  [==] is taken to be a decidable equality, which covers
    integers, booleans, strings, pointers, channels and the structs and
    arrays made of them. *)
Class Elem (T : Type) := {
  zero : T;
  elem_eq_dec :: EqDecision T;
  fmt_v : T → string;
}.

(** The capacity that [append] gives a slice it must reallocate is the
    run-time's choice; all that the language promises is that the
    appended elements fit.  [growcap n c] is the capacity of the new array
    for [n] elements when the old capacity was [c]. *)
Class Growth := {
  growcap : nat → nat → nat;
  growcap_ge : ∀ n c, n ≤ growcap n c;
}.

(** Go's [error]: [nil], or a value that carries a message. *)
Definition error := option string.
Definition nil_error : error := None.
Definition fmt_Errorf (msg : string) : error := Some msg.

(** ** The store *)

(** A slice header.  [ptr] names the backing array ([None] for the nil
    slice), [off] is the position of the slice's first element in it. *)
Record slice := Slice { ptr : option nat; off : nat; len : nat; cap : nat }.

Definition nil_slice : slice := Slice None 0 0 0.

(** [type Queue[T comparable] struct { data []T }] *)
Record Queue := MkQueue { data : slice }.

Record store (T : Type) := Store {
  arrays : list (list T);
  objs : list Queue;
}.
Arguments Store {T} _ _.
Arguments arrays {T} _.
Arguments objs {T} _.

Definition empty_store {T} : store T := Store [] [].

(** ** The monad: state, and [None] for a panic *)

Definition M (T A : Type) := store T → option (A * store T).

Definition ret {T A} (a : A) : M T A := λ st, Some (a, st).
Definition bind {T A B} (m : M T A) (k : A → M T B) : M T B :=
  λ st, match m st with Some (a, st') => k a st' | None => None end.
Definition panic {T A} : M T A := λ _, None.

Notation "'let*' x ':=' m 'in' k" := (bind m (λ x, k))
  (at level 10, x name, m at level 100, k at level 200).

(** splice [vs] into [arr] from position [p] on *)
Definition splice {A} (arr : list A) (p : nat) (vs : list A) : list A :=
  take p arr ++ vs ++ drop (p + length vs) arr.

Section Runtime.
Context {T : Type} `{!Elem T} `{!Growth}.

Local Abbreviation M := (M T).

(** *** Memory *)

Definition alloc (n : nat) : M nat :=
  λ st, Some (length (arrays st),
              Store (arrays st ++ [replicate n zero]) (objs st)).

Definition read_at (a i : nat) : M T :=
  λ st, match arrays st !! a with
        | Some arr => match arr !! i with
                      | Some v => Some (v, st)
                      | None => None
                      end
        | None => None
        end.

Definition write_at (a i : nat) (v : T) : M unit :=
  λ st, match arrays st !! a with
        | Some arr =>
            if i <? length arr
            then Some (tt, Store (<[a := <[i := v]> arr]> (arrays st)) (objs st))
            else None
        | None => None
        end.

(** a block move of [vs] into array [a] from position [p] (memmove) *)
Definition store_at (a p : nat) (vs : list T) : M unit :=
  λ st, match arrays st !! a with
        | Some arr =>
            if p + length vs <=? length arr
            then Some (tt, Store (<[a := splice arr p vs]> (arrays st)) (objs st))
            else None
        | None => None
        end.

(** the elements that a slice header denotes *)
Definition view (arrs : list (list T)) (s : slice) : option (list T) :=
  match ptr s with
  | None => if len s =? 0 then Some [] else None
  | Some a =>
      match arrs !! a with
      | Some arr =>
          if off s + len s <=? length arr
          then Some (take (len s) (drop (off s) arr))
          else None
      | None => None
      end
  end.

Definition load (s : slice) : M (list T) :=
  λ st, match view (arrays st) s with Some l => Some (l, st) | None => None end.

(** the struct behind a [*Queue[T]] *)
Definition new_obj (o : Queue) : M nat :=
  λ st, Some (length (objs st), Store (arrays st) (objs st ++ [o])).

Definition get_data (q : nat) : M slice :=
  λ st, match objs st !! q with Some o => Some (data o, st) | None => None end.

Definition set_data (q : nat) (s : slice) : M unit :=
  λ st, if q <? length (objs st)
        then Some (tt, Store (arrays st) (<[q := MkQueue s]> (objs st)))
        else None.

(** *** Slice built-ins *)

Definition go_len (s : slice) : Z := Z.of_nat (len s).

(** [make([]T, n)] *)
Definition make (n : Z) : M slice :=
  if (n <? 0)%Z then panic
  else let* a := alloc (Z.to_nat n) in
       ret (Slice (Some a) 0 (Z.to_nat n) (Z.to_nat n)).

(** [s[i]] *)
Definition index (s : slice) (i : Z) : M T :=
  if (0 <=? i)%Z && (i <? go_len s)%Z
  then match ptr s with
       | Some a => read_at a (off s + Z.to_nat i)
       | None => panic
       end
  else panic.

(** [s[i] = v] *)
Definition set_index (s : slice) (i : Z) (v : T) : M unit :=
  if (0 <=? i)%Z && (i <? go_len s)%Z
  then match ptr s with
       | Some a => write_at a (off s + Z.to_nat i) v
       | None => panic
       end
  else panic.

(** [s[lo:hi]] *)
Definition reslice (s : slice) (lo hi : Z) : M slice :=
  if (0 <=? lo)%Z && (lo <=? hi)%Z && (hi <=? Z.of_nat (cap s))%Z
  then ret (Slice (ptr s) (off s + Z.to_nat lo)
                  (Z.to_nat hi - Z.to_nat lo) (cap s - Z.to_nat lo))
  else panic.

(** [append(s, vs...)]: in place while the capacity allows, else into a
    new array.  A slice without an array has capacity 0, so within the
    capacity it can only be given no elements. *)
Definition append (s : slice) (vs : list T) : M slice :=
  let n := len s + length vs in
  if n <=? cap s then
    match ptr s with
    | Some a =>
        let* _ := store_at a (off s + len s) vs in
        ret (Slice (Some a) (off s) n (cap s))
    | None => if n =? 0 then ret s else panic
    end
  else
    let* old := load s in
    let* a := alloc (growcap n (cap s)) in
    let* _ := store_at a 0 (old ++ vs) in
    ret (Slice (Some a) 0 n (growcap n (cap s))).

(** [copy(dst, src)] *)
Definition copy (dst src : slice) : M Z :=
  let* vs := load src in
  let n := Nat.min (len dst) (len src) in
  let* _ := match ptr dst with
            | Some a => store_at a (off dst) (take n vs)
            | None => if n =? 0 then ret tt else panic
            end in
  ret (Z.of_nat n).

(** [clear(s)] *)
Definition clear (s : slice) : M unit :=
  match ptr s with
  | Some a => store_at a (off s) (replicate (len s) zero)
  | None => if len s =? 0 then ret tt else panic
  end.

(** *** Package slices *)

(** [slices.Index]: [for i := range s { if v == s[i] { return i } }; return -1] *)
Fixpoint slices_Index_loop (n : nat) (s : slice) (i : Z) (v : T) : M Z :=
  match n with
  | 0 => ret (-1)%Z
  | S n' =>
      let* e := index s i in
      if decide (v = e) then ret i
      else slices_Index_loop n' s (i + 1)%Z v
  end.

Definition slices_Index (s : slice) (v : T) : M Z :=
  slices_Index_loop (len s) s 0%Z v.

(** [slices.Contains]: [return Index(s, v) >= 0] *)
Definition slices_Contains (s : slice) (v : T) : M bool :=
  let* i := slices_Index s v in
  ret (0 <=? i)%Z.

(** [slices.Delete(s, i, j)]: bounds check on [s[i:j:len(s)]], then
    [append(s[:i], s[j:]...)] and [clear] of the vacated tail *)
Definition slices_Delete (s : slice) (i j : Z) : M slice :=
  if negb ((0 <=? i)%Z && (i <=? j)%Z && (j <=? go_len s)%Z) then panic
  else if (i =? j)%Z then ret s
  else
    let oldlen := go_len s in
    let* s1 := reslice s 0 i in
    let* s2 := reslice s j (go_len s) in
    let* vs := load s2 in
    let* s' := append s1 vs in
    let* tl := reslice s' (go_len s') oldlen in
    let* _ := clear tl in
    ret s'.

(** *** Package fmt *)

(** The verb [%v] on a slice: an opening bracket, the elements with a
    space before each one but the first, a closing bracket. *)
Fixpoint fmt_elems (i : nat) (vs : list T) (buf : string) : string :=
  match vs with
  | [] => buf
  | v :: vs' =>
      fmt_elems (S i) vs' ((if 0 <? i then buf +:+ " " else buf) +:+ fmt_v v)
  end.

Definition fmt_slice (vs : list T) : string := fmt_elems 0 vs "[" +:+ "]".

(** ** queue.go *)

(** [func NewQueue[T comparable]() *Queue[T]] *)
Definition NewQueue : M nat := new_obj (MkQueue nil_slice).

(** [func (q *Queue[T]) Enqueue(data T)] *)
Definition Enqueue (q : nat) (v : T) : M unit :=
  let* d := get_data q in
  let* d' := append d [v] in
  set_data q d'.

(** [func (q *Queue[T]) IsEmpty() bool] *)
Definition IsEmpty (q : nat) : M bool :=
  let* d := get_data q in
  ret (go_len d =? 0)%Z.

(** [func (q *Queue[T]) Size() int] *)
Definition Size (q : nat) : M Z :=
  let* d := get_data q in
  ret (go_len d).

(** [func (q *Queue[T]) Dequeue() (T, error)] *)
Definition Dequeue (q : nat) : M (T * error) :=
  let* e := IsEmpty q in
  if e then ret (zero, fmt_Errorf "empty queue")
  else
    let* d := get_data q in
    let* head := index d 0 in
    let* d' := reslice d 1 (go_len d) in
    let* _ := set_data q d' in
    ret (head, nil_error).

(** [func (q *Queue[T]) Front() (T, error)] *)
Definition Front (q : nat) : M (T * error) :=
  let* e := IsEmpty q in
  if e then ret (zero, fmt_Errorf "empty queue")
  else
    let* d := get_data q in
    let* head := index d 0 in
    ret (head, nil_error).

(** [func (q *Queue[T]) Clear()] *)
Definition Clear (q : nat) : M unit :=
  let* d := make 0 in
  set_data q d.

(** [func (q *Queue[T]) String() string] *)
Definition String (q : nat) : M string :=
  let* d := get_data q in
  let* vs := load d in
  ret ("Queue: " +:+ fmt_slice vs).

(** [func (q *Queue[T]) PeekLast() (T, error)] *)
Definition PeekLast (q : nat) : M (T * error) :=
  let* e := IsEmpty q in
  if e then ret (zero, fmt_Errorf "empty queue")
  else
    let* d := get_data q in
    let* n := Size q in
    let* v := index d (n - 1) in
    ret (v, nil_error).

(** [func (q *Queue[T]) Contains(data T) bool] *)
Definition Contains (q : nat) (v : T) : M bool :=
  let* d := get_data q in
  slices_Contains d v.

(** [func (q *Queue[T]) ToSlice() []T] *)
Definition ToSlice (q : nat) : M slice :=
  let* n := Size q in
  let* result := make n in
  let* d := get_data q in
  let* _ := copy result d in
  ret result.

(** [func (q *Queue[T]) Remove(data T) bool]: the range clause reads
    [q.data] once; [n] counts the iterations that are left. *)
Fixpoint Remove_loop (n : nat) (q : nat) (d : slice) (i : Z) (x : T) : M bool :=
  match n with
  | 0 => ret false
  | S n' =>
      let* v := index d i in
      if decide (v = x) then
        let* cur := get_data q in
        let* d' := slices_Delete cur i (i + 1) in
        let* _ := set_data q d' in
        ret true
      else Remove_loop n' q d (i + 1)%Z x
  end.

Definition Remove (q : nat) (x : T) : M bool :=
  let* d := get_data q in
  Remove_loop (len d) q d 0%Z x.

(** [func (q *Queue[T]) Copy() *Queue[T]] *)
Definition Copy (q : nat) : M nat :=
  let* n := Size q in
  let* newData := make n in
  let* d := get_data q in
  let* _ := copy newData d in
  new_obj (MkQueue newData).

(** [func (q *Queue[T]) Reverse()]:
    [for i, j := 0, q.Size()-1; i < j; i, j = i+1, j-1].  The loop runs
    on fuel; [Reverse] gives it the size of the queue, which is more than
    the loop uses. *)
Fixpoint Reverse_loop (fuel : nat) (q : nat) (i j : Z) : M unit :=
  if (i <? j)%Z then
    match fuel with
    | 0 => panic
    | S fuel' =>
        let* d := get_data q in
        let* x := index d j in
        let* y := index d i in
        let* _ := set_index d i x in
        let* _ := set_index d j y in
        Reverse_loop fuel' q (i + 1)%Z (j - 1)%Z
    end
  else ret tt.

Definition Reverse (q : nat) : M unit :=
  let* n := Size q in
  Reverse_loop (Z.to_nat n) q 0%Z (n - 1)%Z.

End Runtime.

(** ** Weakest preconditions *)

Definition wp {T A} (m : M T A) (st : store T) (Q : A → store T → Prop) : Prop :=
  match m st with Some (a, st') => Q a st' | None => False end.

Section Invariant.
Context {T : Type} `{!Elem T}.
Implicit Types (st : store T) (s d : slice) (l vs arr : list T).
Implicit Types (arrs : list (list T)) (q a : nat).

(** *** The invariant of the store

    Every queue's header lies within its backing array, and no two queues
    share a backing array. *)

Definition slice_ok arrs s : bool :=
  match ptr s with
  | None => (off s =? 0) && (len s =? 0) && (cap s =? 0)
  | Some a =>
      match arrs !! a with
      | Some arr => (off s + cap s =? length arr) && (len s <=? cap s)
      | None => false
      end
  end.

Definition same_array (o1 o2 : option Queue) : bool :=
  match o1, o2 with
  | Some x, Some y =>
      match ptr (data x), ptr (data y) with
      | Some a, Some b => a =? b
      | _, _ => false
      end
  | _, _ => false
  end.

Definition no_alias (os : list Queue) : bool :=
  forallb (λ i, forallb (λ j, (i =? j) || negb (same_array (os !! i) (os !! j)))
                        (seq 0 (length os)))
          (seq 0 (length os)).

Definition wfb st : bool :=
  forallb (λ o, slice_ok (arrays st) (data o)) (objs st) && no_alias (objs st).

Definition wf st : Prop := wfb st = true.

(** the elements of queue [q], head first *)
Definition contents st q : option (list T) :=
  match objs st !! q with
  | Some o => view (arrays st) (data o)
  | None => None
  end.

(** *** Framing: what a step may change in the arrays

    Arrays are never freed or resized; [frame_arrays m] also says that
    only the array [m] has new elements. *)

Definition frame_arrays (m : option nat) arrs arrs' : Prop :=
  ∀ a arr, arrs !! a = Some arr →
    ∃ arr', arrs' !! a = Some arr' ∧ length arr' = length arr
            ∧ (m ≠ Some a → arr' = arr).

(** a step on queue [q] keeps the number of queues and the elements of
    every other queue *)
Definition others_kept q st st' : Prop :=
  length (objs st') = length (objs st) ∧
  ∀ q' l', q' ≠ q → contents st q' = Some l' → contents st' q' = Some l'.

(** the array after the swaps: the positions from [lo] to [hi] mirrored *)
Definition mirrored arr (lo hi : Z) (k : nat) : option T :=
  if decide (lo ≤ Z.of_nat k ≤ hi)%Z
  then arr !! Z.to_nat (lo + hi - Z.of_nat k)
  else arr !! k.

(** no queue has its elements in the array of the slice [r] *)
Definition unowned st (r : slice) : Prop :=
  ∀ q o a, objs st !! q = Some o → ptr r = Some a → ptr (data o) ≠ Some a.

End Invariant.

(** ** Programs over the methods

    The clients that the properties below run: sequences of calls on one
    queue or on a queue and its copy, writes through the slice that
    [ToSlice] returned, and the observations a caller can make. *)

Section Programs.
Context {T : Type} `{!Elem T} `{!Growth}.

(** [for _, v := range vs { q.Enqueue(v) }] *)
Fixpoint enqueue_all (q : nat) (vs : list T) : M T unit :=
  match vs with
  | [] => ret tt
  | v :: vs' => let* _ := Enqueue q v in enqueue_all q vs'
  end.

(** [n] calls of [q.Dequeue()], their results in order *)
Fixpoint dequeue_n (q : nat) (n : nat) : M T (list (T * error)) :=
  match n with
  | 0 => ret []
  | S n' =>
      let* r := Dequeue q in
      let* rs := dequeue_n q n' in
      ret (r :: rs)
  end.

Definition fifo_program (vs : list T) : M T (list (T * error)) :=
  let* q := NewQueue in
  let* _ := enqueue_all q vs in
  dequeue_n q (length vs).

(** calls of [Enqueue] and [Dequeue] in any order *)
Inductive op := OpEnqueue (v : T) | OpDequeue.

Definition is_enqueue (o : op) : bool :=
  match o with OpEnqueue _ => true | OpDequeue => false end.

Definition is_nil_error (e : error) : bool :=
  match e with None => true | Some _ => false end.

(** runs the calls and counts the calls of [Dequeue] that returned a nil
    error *)
Fixpoint run_ops (q : nat) (ops : list op) : M T nat :=
  match ops with
  | [] => ret 0
  | OpEnqueue v :: ops' => let* _ := Enqueue q v in run_ops q ops'
  | OpDequeue :: ops' =>
      let* r := Dequeue q in
      let* j := run_ops q ops' in
      ret (if is_nil_error (snd r) then S j else j)
  end.

Definition size_program (ops : list op) : M T (nat * Z * bool) :=
  let* q := NewQueue in
  let* j := run_ops q ops in
  let* n := Size q in
  let* e := IsEmpty q in
  ret (j, n, e).

(** [ToSlice], [Reverse], [ToSlice], [Reverse], [ToSlice]: the three
    slices as the caller reads them *)
Definition reverse_program (q : nat) : M T (list T * list T * list T) :=
  let* s0 := ToSlice q in
  let* l0 := load s0 in
  let* _ := Reverse q in
  let* s1 := ToSlice q in
  let* l1 := load s1 in
  let* _ := Reverse q in
  let* s2 := ToSlice q in
  let* l2 := load s2 in
  ret (l0, l1, l2).

(** the mutating methods *)
Inductive mutation :=
  | MEnqueue (v : T) | MDequeue | MClear | MRemove (v : T) | MReverse.

Definition mutate (q : nat) (m : mutation) : M T unit :=
  match m with
  | MEnqueue v => Enqueue q v
  | MDequeue => let* _ := Dequeue q in ret tt
  | MClear => Clear q
  | MRemove v => let* _ := Remove q v in ret tt
  | MReverse => Reverse q
  end.

(** the stores that a client of the package can build: it starts from the
    empty store and calls [NewQueue], the mutating methods, [Copy] and
    [ToSlice] on the queues it has *)
Inductive reachable : store T → Prop :=
  | reach_empty : reachable empty_store
  | reach_NewQueue st q st' :
      reachable st → NewQueue st = Some (q, st') → reachable st'
  | reach_mutate st q m u st' :
      reachable st → mutate q m st = Some (u, st') → reachable st'
  | reach_Copy st q c st' :
      reachable st → Copy q st = Some (c, st') → reachable st'
  | reach_ToSlice st q r st' :
      reachable st → ToSlice q st = Some (r, st') → reachable st'.

(** mutations of two queues, interleaved: [true] is for the first *)
Fixpoint mutate_both (q c : nat) (ms : list (bool * mutation)) : M T unit :=
  match ms with
  | [] => ret tt
  | (b, m) :: ms' =>
      let* _ := mutate (if b then q else c) m in
      mutate_both q c ms'
  end.

(** what a caller can do to a slice it holds: [r[i] = v] and
    [r = append(r, v)] *)
Inductive slice_mutation := SetAt (i : Z) (v : T) | AppendTo (v : T).

Fixpoint mutate_slice (r : slice) (ws : list slice_mutation) : M T slice :=
  match ws with
  | [] => ret r
  | SetAt i v :: ws' => let* _ := set_index r i v in mutate_slice r ws'
  | AppendTo v :: ws' => let* r' := append r [v] in mutate_slice r' ws'
  end.

(** the reading methods, and what the caller sees of their results *)
Inductive read_op :=
  | RDequeue | RFront | RPeekLast | RIsEmpty | RSize
  | RContains (x : T) | RToSlice | RString.

Inductive observation :=
  | OElem (v : T) (e : error)
  | OBool (b : bool)
  | OInt (n : Z)
  | OSlice (is_nil : bool) (elems : list T) (capacity : nat)
  | OString (s : string).

Definition is_nil_slice (s : slice) : bool :=
  match ptr s with None => true | Some _ => false end.

Definition read (q : nat) (r : read_op) : M T observation :=
  match r with
  | RDequeue => let* x := Dequeue q in ret (OElem (fst x) (snd x))
  | RFront => let* x := Front q in ret (OElem (fst x) (snd x))
  | RPeekLast => let* x := PeekLast q in ret (OElem (fst x) (snd x))
  | RIsEmpty => let* b := IsEmpty q in ret (OBool b)
  | RSize => let* n := Size q in ret (OInt n)
  | RContains x => let* b := Contains q x in ret (OBool b)
  | RToSlice =>
      let* s := ToSlice q in
      let* l := load s in
      ret (OSlice (is_nil_slice s) l (cap s))
  | RString => let* s := String q in ret (OString s)
  end.

Fixpoint reads (q : nat) (rs : list read_op) : M T (list observation) :=
  match rs with
  | [] => ret []
  | r :: rs' =>
      let* o := read q r in
      let* os := reads q rs' in
      ret (o :: os)
  end.

(** what a queue without elements answers *)
Definition empty_answer (r : read_op) : observation :=
  match r with
  | RDequeue | RFront | RPeekLast => OElem zero (fmt_Errorf "empty queue")
  | RIsEmpty => OBool true
  | RSize => OInt 0
  | RContains _ => OBool false
  | RToSlice => OSlice false [] 0
  | RString => OString "Queue: []"
  end.

Definition after_Clear (q : nat) (rs : list read_op) : M T (list observation) :=
  let* _ := Clear q in reads q rs.

Definition after_NewQueue (rs : list read_op) : M T (list observation) :=
  let* q := NewQueue in reads q rs.

End Programs.

(** ** Calls on one queue, and a list as their model *)

Section Calls.
Context {T : Type} `{!Elem T} `{!Growth}.

(** a call of any method but [NewQueue] and [Copy], which give a queue *)
Inductive call :=
  | CRead (r : @read_op T)
  | CEnqueue (v : T)
  | CClear
  | CRemove (x : T)
  | CReverse.

(** the call and what it returns, if it returns a value *)
Definition do_call (q : nat) (c : call) : M T (option observation) :=
  match c with
  | CRead r => let* o := read q r in ret (Some o)
  | CEnqueue v => let* _ := Enqueue q v in ret None
  | CClear => let* _ := Clear q in ret None
  | CRemove x => let* b := Remove q x in ret (Some (OBool b))
  | CReverse => let* _ := Reverse q in ret None
  end.

Fixpoint calls (q : nat) (cs : list call) : M T (list (option observation)) :=
  match cs with
  | [] => ret []
  | c :: cs' =>
      let* o := do_call q c in
      let* os := calls q cs' in
      ret (o :: os)
  end.

(** mutations of any queues of the store, one after the other *)
Fixpoint mutate_many (ms : list (nat * @mutation T)) : M T unit :=
  match ms with
  | [] => ret tt
  | (q, m) :: ms' => let* _ := mutate q m in mutate_many ms'
  end.

(** The queue as the documentation of the package describes it: a list
    with its head first.  [list_call l c] is the value that call [c]
    returns on the elements [l] and the elements after it. *)
Fixpoint remove_first (x : T) (l : list T) : list T :=
  match l with
  | [] => []
  | y :: l' => if decide (y = x) then l' else y :: remove_first x l'
  end.

Definition list_end (o : option T) : observation :=
  match o with
  | Some x => OElem x nil_error
  | None => OElem zero (fmt_Errorf "empty queue")
  end.

Definition list_read (l : list T) (r : read_op) : observation * list T :=
  match r with
  | RDequeue => (list_end (head l), tail l)
  | RFront => (list_end (head l), l)
  | RPeekLast => (list_end (last l), l)
  | RIsEmpty => (OBool (bool_decide (l = [])), l)
  | RSize => (OInt (Z.of_nat (length l)), l)
  | RContains x => (OBool (bool_decide (x ∈ l)), l)
  | RToSlice => (OSlice false l (length l), l)
  | RString =>
      (OString ("Queue: [" +:+ String.concat " " (fmt_v <$> l) +:+ "]"), l)
  end.

Definition list_call (l : list T) (c : call) : option observation * list T :=
  match c with
  | CRead r => (Some (fst (list_read l r)), snd (list_read l r))
  | CEnqueue v => (None, l ++ [v])
  | CClear => (None, [])
  | CRemove x => (Some (OBool (bool_decide (x ∈ l))), remove_first x l)
  | CReverse => (None, reverse l)
  end.

Fixpoint list_calls (l : list T) (cs : list call)
    : list (option observation) * list T :=
  match cs with
  | [] => ([], l)
  | c :: cs' =>
      let r := list_call l c in
      let rs := list_calls (snd r) cs' in
      (fst r :: fst rs, snd rs)
  end.

(** what a method may change when it is called on queue [q]: the header
    of [q], the array of [q], and arrays that did not exist before; a new
    header of [q] is in the old array of [q] or in a new array *)
Definition touches (q : nat) (st st' : store T) : Prop :=
  ∃ o o',
    objs st !! q = Some o ∧ objs st' = <[q := o']> (objs st) ∧
    frame_arrays (ptr (data o)) (arrays st) (arrays st') ∧
    (∀ a, ptr (data o') = Some a →
       ptr (data o) = Some a ∨ length (arrays st) ≤ a).

(** a method that works in place: no new array, and the header of [q]
    keeps its array *)
Definition in_place (q : nat) (st st' : store T) : Prop :=
  length (arrays st') = length (arrays st) ∧
  ∃ o o',
    objs st !! q = Some o ∧ objs st' !! q = Some o' ∧
    ptr (data o') = ptr (data o).

End Calls.

(** ** Instances: Go's [int], and a run-time that doubles *)

(** [%v] on an [int]: decimal digits, with a sign when negative *)
Definition fmt_int (z : Z) : string := NilZero.string_of_int (Z.to_int z).

#[export] Instance Elem_int : Elem Z :=
  {| zero := 0%Z; elem_eq_dec := Z.eq_dec; fmt_v := fmt_int |}.

#[export] Instance Growth_doubling : Growth :=
  {| growcap n c := Nat.max n (2 * c);
     growcap_ge n c := Nat.le_max_l n (2 * c) |}.

(** the example of the documentation:
    [q.Enqueue(1); q.Enqueue(2); q.String()] on a new queue of [int] *)
Definition string_example `{!Growth} : M Z string :=
  let* q := NewQueue in
  let* _ := Enqueue q 1%Z in
  let* _ := Enqueue q 2%Z in
  String q.

(** Go's [string]: [%v] writes it as it is *)
#[export] Instance Elem_string : Elem string :=
  {| zero := ""; elem_eq_dec := String.eq_dec; fmt_v := id |}.

(** A store with two queues that share no array: the first is new, the
    second has had 10, 20 and 30 enqueued and 10 dequeued. *)
Definition demo_store : store Z :=
  Store [[10; 20; 30; 0]%Z]
        [MkQueue nil_slice; MkQueue (Slice (Some 0) 1 2 3)].

(** The elements 20 and 30 again, in a queue that never dequeued. *)
Definition demo_store_2 : store Z :=
  Store [[20]; [20; 30]]%Z [MkQueue (Slice (Some 1) 0 2 2)].

(** ** queue_test.go, as programs *)

Definition TestEnqueueAndDequeue : M Z _ :=
  let* q := NewQueue in
  let* e0 := IsEmpty q in
  let* _ := Enqueue q 10%Z in
  let* _ := Enqueue q 20%Z in
  let* _ := Enqueue q 30%Z in
  let* n := Size q in
  let* e1 := IsEmpty q in
  let* a := Dequeue q in
  let* b := Dequeue q in
  let* c := Dequeue q in
  let* d := Dequeue q in
  ret (e0, n, e1, a, b, c, d).

Definition TestFront : M string _ :=
  let* q := NewQueue in
  let* a := Front q in
  let* _ := Enqueue q "foo" in
  let* b := Front q in
  let* _ := Enqueue q "bar" in
  let* c := Front q in
  ret (a, b, c).

Definition TestPeekLast : M Z _ :=
  let* q := NewQueue in
  let* a := PeekLast q in
  let* _ := Enqueue q 1%Z in
  let* _ := Enqueue q 2%Z in
  let* b := PeekLast q in
  ret (a, b).

Definition TestClear : M Z _ :=
  let* q := NewQueue in
  let* _ := Enqueue q 1%Z in
  let* _ := Enqueue q 2%Z in
  let* _ := Clear q in
  let* e := IsEmpty q in
  let* n := Size q in
  let* a := Dequeue q in
  ret (e, n, a).

Definition TestCopy : M Z _ :=
  let* q := NewQueue in
  let* _ := Enqueue q 1%Z in
  let* _ := Enqueue q 2%Z in
  let* clone := Copy q in
  let* n0 := Size clone in
  let* m0 := Size q in
  let* _ := Enqueue clone 3%Z in
  let* n1 := Size clone in
  let* m1 := Size q in
  ret (n0, m0, n1, m1).

Definition TestReverse : M Z _ :=
  let* q := NewQueue in
  let* _ := enqueue_all q [1; 2; 3]%Z in
  let* _ := Reverse q in
  let* actual := ToSlice q in
  load actual.

Definition TestContains : M string _ :=
  let* q := NewQueue in
  let* _ := Enqueue q "apple" in
  let* _ := Enqueue q "banana" in
  let* a := Contains q "apple" in
  let* b := Contains q "orange" in
  ret (a, b).

Definition TestRemove : M Z _ :=
  let* q := NewQueue in
  let* _ := Enqueue q 1%Z in
  let* _ := Enqueue q 2%Z in
  let* _ := Enqueue q 3%Z in
  let* removed := Remove q 2%Z in
  let* has := Contains q 2%Z in
  let* again := Remove q 42%Z in
  let* rest := ToSlice q in
  let* l := load rest in
  ret (removed, has, again, l).

(** ** Lists: splicing *)

Section Splice.
Context {A : Type}.
Implicit Types (arr vs l : list A).

Lemma length_splice arr p vs :
  p + length vs ≤ length arr → length (splice arr p vs) = length arr.
Proof.
  intros Hle. unfold splice.
  rewrite !length_app, length_take, length_drop. lia.
Qed.

Lemma lookup_splice arr p vs i :
  p + length vs ≤ length arr →
  splice arr p vs !! i =
    if decide (i < p) then arr !! i
    else if decide (i < p + length vs) then vs !! (i - p)
    else arr !! i.
Proof.
  intros Hle. unfold splice. repeat case_decide.
  - rewrite lookup_app_l by (rewrite length_take; lia).
    by rewrite lookup_take_lt.
  - rewrite lookup_app_r by (rewrite length_take; lia).
    rewrite length_take, lookup_app_l by lia. f_equal; lia.
  - rewrite lookup_app_r by (rewrite length_take; lia).
    rewrite length_take, lookup_app_r by lia.
    rewrite lookup_drop. f_equal; lia.
Qed.

(** writing [vs] over the last elements of a prefix *)
Lemma splice_take_tail l n vs :
  n + length vs ≤ length l →
  splice (take (n + length vs) l) n vs = take n l ++ vs.
Proof.
  intros Hle. unfold splice.
  rewrite take_take, Nat.min_l by lia.
  rewrite drop_ge by (rewrite length_take; lia).
  by rewrite app_nil_r.
Qed.

Lemma take_drop_splice arr o n p vs :
  o ≤ p → p + length vs ≤ o + n → o + n ≤ length arr →
  take n (drop o (splice arr p vs)) = splice (take n (drop o arr)) (p - o) vs.
Proof.
  intros H1 H2 H3. apply list_eq. intros i.
  rewrite lookup_take, lookup_drop, !lookup_splice
    by (rewrite ?length_take, ?length_drop; lia).
  rewrite !lookup_take, !lookup_drop.
  repeat case_decide; try lia; try done; f_equal; lia.
Qed.

Lemma take_drop_splice_out arr o n p vs :
  o + n ≤ p → p + length vs ≤ length arr →
  take n (drop o (splice arr p vs)) = take n (drop o arr).
Proof.
  intros H1 H2. apply list_eq. intros i.
  rewrite !lookup_take, !lookup_drop, lookup_splice by lia.
  repeat case_decide; try lia; done.
Qed.

End Splice.

(** ** Rules of the weakest precondition, facts on the invariant *)

Section InvariantFacts.
Context {T : Type} `{!Elem T} `{!Growth}.
Implicit Types (st : store T) (s d : slice) (l vs arr : list T).
Implicit Types (arrs : list (list T)) (q a : nat).

Lemma wp_ret {A} (x : A) st Q : Q x st → wp (ret x) st Q.
Proof. done. Qed.

Lemma wp_bind {A B} (m : M T A) (k : A → M T B) st Q :
  wp m st (λ x st', wp (k x) st' Q) → wp (let* x := m in k x) st Q.
Proof. unfold wp, bind. by destruct (m st) as [[x st']|]. Qed.

Lemma wp_mono {A} (m : M T A) st (Q Q' : A → store T → Prop) :
  wp m st Q → (∀ x st', Q x st' → Q' x st') → wp m st Q'.
Proof. unfold wp. destruct (m st) as [[x st']|]; naive_solver. Qed.

Lemma wp_eq {A} (m : M T A) st x st' (Q : A → store T → Prop) :
  m st = Some (x, st') → Q x st' → wp m st Q.
Proof. unfold wp. by intros ->. Qed.

Lemma wp_inv {A} (m : M T A) st x st' (Q : A → store T → Prop) :
  wp m st Q → m st = Some (x, st') → Q x st'.
Proof. unfold wp. intros HQ Hm. by rewrite Hm in HQ. Qed.

Lemma wp_elim {A} (m : M T A) st (Q : A → store T → Prop) :
  wp m st Q → ∃ x st', m st = Some (x, st') ∧ Q x st'.
Proof. unfold wp. destruct (m st) as [[x st']|]; naive_solver. Qed.

Lemma slice_ok_Some arrs s a :
  slice_ok arrs s = true → ptr s = Some a →
  ∃ arr, arrs !! a = Some arr ∧ off s + cap s = length arr ∧ len s ≤ cap s.
Proof.
  unfold slice_ok. intros Hok Hp. rewrite Hp in Hok.
  destruct (arrs !! a) as [arr|]; [|done].
  apply andb_true_iff in Hok as [H1 H2].
  apply Nat.eqb_eq in H1. apply Nat.leb_le in H2. eauto.
Qed.

Lemma slice_ok_None arrs s :
  slice_ok arrs s = true → ptr s = None → off s = 0 ∧ len s = 0 ∧ cap s = 0.
Proof.
  unfold slice_ok. intros Hok Hp. rewrite Hp in Hok.
  apply andb_true_iff in Hok as [[H1 H2]%andb_true_iff H3].
  by rewrite !Nat.eqb_eq in *.
Qed.

Lemma slice_ok_intro arrs s a arr :
  ptr s = Some a → arrs !! a = Some arr →
  off s + cap s = length arr → len s ≤ cap s → slice_ok arrs s = true.
Proof.
  unfold slice_ok. intros -> -> H1 H2.
  apply andb_true_iff. by rewrite Nat.eqb_eq, Nat.leb_le.
Qed.

Lemma view_Some arrs s a arr :
  ptr s = Some a → arrs !! a = Some arr → off s + len s ≤ length arr →
  view arrs s = Some (take (len s) (drop (off s) arr)).
Proof.
  unfold view. intros -> -> Hle. by rewrite (proj2 (Nat.leb_le _ _) Hle).
Qed.

Lemma view_inv arrs s a l :
  view arrs s = Some l → ptr s = Some a →
  ∃ arr, arrs !! a = Some arr ∧ off s + len s ≤ length arr
         ∧ l = take (len s) (drop (off s) arr).
Proof.
  unfold view. intros Hv Hp. rewrite Hp in Hv.
  destruct (arrs !! a) as [arr|]; [|done].
  destruct (Nat.leb_spec (off s + len s) (length arr)); [|done].
  exists arr. by simplify_eq.
Qed.

Lemma view_length arrs s l : view arrs s = Some l → length l = len s.
Proof.
  destruct (ptr s) as [a|] eqn:Hp.
  - intros (arr & _ & Hle & ->)%(view_inv _ _ a); [|done].
    rewrite length_take, length_drop. lia.
  - unfold view. rewrite Hp. destruct (Nat.eqb_spec (len s) 0); [|done].
    intros; by simplify_eq.
Qed.

Lemma view_Some_of_ok arrs s : slice_ok arrs s = true → is_Some (view arrs s).
Proof.
  intros Hok. destruct (ptr s) as [a|] eqn:Hp.
  - destruct (slice_ok_Some _ _ _ Hok Hp) as (arr & Ha & H1 & H2).
    rewrite (view_Some _ _ a arr); [done..|lia].
  - destruct (slice_ok_None _ _ Hok Hp) as (_ & Hl & _).
    unfold view. rewrite Hp, Hl. done.
Qed.

Lemma wf_iff st :
  wf st ↔
  (∀ q o, objs st !! q = Some o → slice_ok (arrays st) (data o) = true) ∧
  (∀ q1 q2 o1 o2 a, objs st !! q1 = Some o1 → objs st !! q2 = Some o2 →
     ptr (data o1) = Some a → ptr (data o2) = Some a → q1 = q2).
Proof.
  unfold wf, wfb, no_alias. rewrite andb_true_iff, !forallb_forall. split.
  - intros [Hok Hna]. split.
    + intros q o Hq. apply Hok, list_elem_of_In, list_elem_of_lookup; eauto.
    + intros q1 q2 o1 o2 a H1 H2 Hp1 Hp2.
      assert (In q1 (seq 0 (length (objs st)))) as Hi1
        by (apply in_seq; apply lookup_lt_Some in H1; lia).
      assert (In q2 (seq 0 (length (objs st)))) as Hi2
        by (apply in_seq; apply lookup_lt_Some in H2; lia).
      specialize (Hna _ Hi1). rewrite forallb_forall in Hna.
      specialize (Hna _ Hi2). rewrite H1, H2 in Hna. simpl in Hna.
      rewrite Hp1, Hp2, Nat.eqb_refl in Hna. simpl in Hna.
      apply orb_true_iff in Hna as [Hna|]; [|done]. by apply Nat.eqb_eq.
  - intros [Hok Hna]. split.
    + intros o [q Hq]%list_elem_of_In%list_elem_of_lookup. eauto.
    + intros q1 _. apply forallb_forall. intros q2 _.
      destruct (Nat.eqb_spec q1 q2) as [|Hne]; [done|]. simpl.
      unfold same_array.
      destruct (objs st !! q1) as [o1|] eqn:H1; [|done].
      destruct (objs st !! q2) as [o2|] eqn:H2; [|done].
      destruct (ptr (data o1)) as [a|] eqn:Hp1; [|done].
      destruct (ptr (data o2)) as [b|] eqn:Hp2; [|done].
      destruct (Nat.eqb_spec a b) as [->|]; [|done].
      destruct Hne. eauto.
Qed.

Lemma wf_slice_ok st q o :
  wf st → objs st !! q = Some o → slice_ok (arrays st) (data o) = true.
Proof. intros [Hok _]%wf_iff. eauto. Qed.

Lemma wf_no_alias st q1 q2 o1 o2 a :
  wf st → objs st !! q1 = Some o1 → objs st !! q2 = Some o2 →
  ptr (data o1) = Some a → ptr (data o2) = Some a → q1 = q2.
Proof. intros [_ Hna]%wf_iff. eauto. Qed.

Lemma wf_empty : wf (@empty_store T).
Proof. done. Qed.

Lemma contents_inv st q l :
  contents st q = Some l →
  ∃ o, objs st !! q = Some o ∧ view (arrays st) (data o) = Some l.
Proof. unfold contents. destruct (objs st !! q); naive_solver. Qed.

Lemma contents_intro st q o l :
  objs st !! q = Some o → view (arrays st) (data o) = Some l →
  contents st q = Some l.
Proof. unfold contents. by intros ->. Qed.

Lemma wf_contents st q o :
  wf st → objs st !! q = Some o → is_Some (contents st q).
Proof.
  intros Hwf Hq. unfold contents. rewrite Hq.
  eapply view_Some_of_ok, wf_slice_ok; eauto.
Qed.

Lemma frame_refl m arrs : frame_arrays m arrs arrs.
Proof. intros a arr Ha. eauto. Qed.

Lemma frame_trans m arrs1 arrs2 arrs3 :
  frame_arrays m arrs1 arrs2 → frame_arrays m arrs2 arrs3 →
  frame_arrays m arrs1 arrs3.
Proof.
  intros H12 H23 a arr Ha.
  destruct (H12 _ _ Ha) as (arr2 & Ha2 & Hl2 & He2).
  destruct (H23 _ _ Ha2) as (arr3 & Ha3 & Hl3 & He3).
  exists arr3. split_and!; [done|congruence|].
  intros Hm. rewrite He3, He2; done.
Qed.

Lemma frame_weaken m arrs arrs' :
  frame_arrays None arrs arrs' → frame_arrays m arrs arrs'.
Proof.
  intros Hf a arr Ha. destruct (Hf _ _ Ha) as (arr' & ? & ? & He).
  exists arr'. split_and!; [done..|]. intros _. by apply He.
Qed.

Lemma frame_alloc m arrs arr0 : frame_arrays m arrs (arrs ++ [arr0]).
Proof.
  intros a arr Ha. exists arr. split_and!; [|done..].
  rewrite lookup_app_l; [done|]. by eapply lookup_lt_Some.
Qed.

Lemma frame_insert arrs a arr arr' :
  arrs !! a = Some arr → length arr' = length arr →
  frame_arrays (Some a) arrs (<[a := arr']> arrs).
Proof.
  intros Ha Hl b arrb Hb. destruct (decide (a = b)) as [->|Hne].
  - exists arr'. rewrite list_lookup_insert_eq by (by eapply lookup_lt_Some).
    split_and!; [done|congruence|done].
  - exists arrb. by rewrite list_lookup_insert_ne.
Qed.

Lemma frame_insert_fresh m arrs arrs' a arr' :
  frame_arrays m arrs arrs' → length arrs ≤ a →
  frame_arrays m arrs (<[a := arr']> arrs').
Proof.
  intros Hf Hge b arrb Hb. destruct (Hf _ _ Hb) as (arr2 & ? & ? & ?).
  exists arr2. apply lookup_lt_Some in Hb.
  rewrite list_lookup_insert_ne by lia. done.
Qed.

Lemma slice_ok_frame m arrs arrs' s :
  frame_arrays m arrs arrs' → slice_ok arrs s = true → slice_ok arrs' s = true.
Proof.
  intros Hf Hok. destruct (ptr s) as [a|] eqn:Hp.
  - destruct (slice_ok_Some _ _ _ Hok Hp) as (arr & Ha & H1 & H2).
    destruct (Hf _ _ Ha) as (arr' & Ha' & Hl & _).
    eapply slice_ok_intro; eauto. congruence.
  - unfold slice_ok in *. by rewrite Hp in *.
Qed.

Lemma view_frame m arrs arrs' s l :
  frame_arrays m arrs arrs' → view arrs s = Some l →
  (∀ a, ptr s = Some a → m ≠ Some a) →
  view arrs' s = Some l.
Proof.
  intros Hf Hv Hm. destruct (ptr s) as [a|] eqn:Hp.
  - destruct (view_inv _ _ a _ Hv Hp) as (arr & Ha & Hle & ->).
    destruct (Hf _ _ Ha) as (arr' & Ha' & Hl & He).
    rewrite He in Ha' by eauto. by apply (view_Some _ _ a).
  - unfold view in *. by rewrite Hp in *.
Qed.

End InvariantFacts.

(** ** The steps of the run-time, as equations and as rules *)

Section Steps.
Context {T : Type} `{!Elem T} `{!Growth}.
Implicit Types (st : store T) (s d : slice) (l vs arr : list T).
Implicit Types (arrs : list (list T)) (q a : nat).

Lemma get_data_eq st q o : objs st !! q = Some o → get_data q st = Some (data o, st).
Proof. unfold get_data. by intros ->. Qed.

Lemma set_data_eq st q s :
  q < length (objs st) →
  set_data q s st = Some (tt, Store (arrays st) (<[q := MkQueue s]> (objs st))).
Proof. unfold set_data. intros Hq. by rewrite (proj2 (Nat.ltb_lt _ _) Hq). Qed.

Lemma store_at_eq st a p vs arr :
  arrays st !! a = Some arr → p + length vs ≤ length arr →
  store_at a p vs st
  = Some (tt, Store (<[a := splice arr p vs]> (arrays st)) (objs st)).
Proof.
  unfold store_at. intros -> Hle. by rewrite (proj2 (Nat.leb_le _ _) Hle).
Qed.

Lemma load_eq st s l : view (arrays st) s = Some l → load s st = Some (l, st).
Proof. unfold load. by intros ->. Qed.

Lemma view_lookup arrs s l a i v :
  view arrs s = Some l → ptr s = Some a → l !! i = Some v →
  ∃ arr, arrs !! a = Some arr ∧ arr !! (off s + i) = Some v
         ∧ off s + i < length arr ∧ i < len s.
Proof.
  intros Hv Hp Hi. destruct (view_inv _ _ _ _ Hv Hp) as (arr & Ha & Hle & ->).
  exists arr. rewrite lookup_take, lookup_drop in Hi.
  case_decide; [|done]. split_and!; [done..|lia|done].
Qed.

Lemma view_nil_ptr arrs s l i v :
  view arrs s = Some l → l !! i = Some v → is_Some (ptr s).
Proof.
  intros Hv Hi. destruct (ptr s) eqn:Hp; [done|].
  unfold view in Hv. rewrite Hp in Hv.
  destruct (len s =? 0); by simplify_eq.
Qed.

Lemma index_eq st s l i v :
  view (arrays st) s = Some l → (0 ≤ i)%Z → l !! Z.to_nat i = Some v →
  index s i st = Some (v, st).
Proof.
  intros Hv Hi Hl.
  destruct (view_nil_ptr _ _ _ _ _ Hv Hl) as [a Hp].
  destruct (view_lookup _ _ _ _ _ _ Hv Hp Hl) as (arr & Ha & Hr & _ & Hlt).
  unfold index, go_len.
  rewrite (proj2 (Z.leb_le _ _) Hi), (proj2 (Z.ltb_lt i _)) by lia.
  simpl. rewrite Hp. unfold read_at. by rewrite Ha, Hr.
Qed.

Lemma index_panics st s i :
  (i < 0 ∨ go_len s ≤ i)%Z → index s i st = None.
Proof.
  intros Hi. unfold index.
  destruct (Z.leb_spec 0 i), (Z.ltb_spec i (go_len s)); simpl; done || lia.
Qed.

Lemma set_index_eq st s i v a arr :
  ptr s = Some a → arrays st !! a = Some arr → off s + len s ≤ length arr →
  (0 ≤ i < go_len s)%Z →
  set_index s i v st
  = Some (tt, Store (<[a := <[off s + Z.to_nat i := v]> arr]> (arrays st)) (objs st)).
Proof.
  intros Hp Ha Hle Hi. unfold set_index, go_len in *.
  rewrite (proj2 (Z.leb_le 0 i)), (proj2 (Z.ltb_lt i _)) by lia.
  simpl. rewrite Hp. unfold write_at. rewrite Ha.
  by rewrite (proj2 (Nat.ltb_lt _ _)) by lia.
Qed.

Lemma reslice_eq st s lo hi :
  (0 ≤ lo ≤ hi)%Z → (hi ≤ Z.of_nat (cap s))%Z →
  reslice s lo hi st
  = Some (Slice (ptr s) (off s + Z.to_nat lo) (Z.to_nat hi - Z.to_nat lo)
                (cap s - Z.to_nat lo), st).
Proof.
  intros [H1 H2] H3. unfold reslice.
  by rewrite (proj2 (Z.leb_le 0 lo)), (proj2 (Z.leb_le lo hi)),
    (proj2 (Z.leb_le hi _)) by lia.
Qed.

Lemma make_eq st n :
  (0 ≤ n)%Z →
  make n st
  = Some (Slice (Some (length (arrays st))) 0 (Z.to_nat n) (Z.to_nat n),
          Store (arrays st ++ [replicate (Z.to_nat n) zero]) (objs st)).
Proof. intros Hn. unfold make. by rewrite (proj2 (Z.ltb_ge n 0)) by lia. Qed.

Lemma lookup_fresh arrs arr0 arr1 :
  <[length arrs := arr1]> (arrs ++ [arr0]) !! length arrs = Some arr1.
Proof. apply list_lookup_insert_eq. rewrite length_app. simpl. lia. Qed.

Lemma view_splice_in arrs a arr s p vs :
  ptr s = Some a → arrs !! a = Some arr →
  off s ≤ p → p + length vs ≤ off s + len s → off s + len s ≤ length arr →
  view (<[a := splice arr p vs]> arrs) s
  = Some (splice (take (len s) (drop (off s) arr)) (p - off s) vs).
Proof.
  intros Hp Ha H1 H2 H3.
  rewrite (view_Some _ _ a (splice arr p vs)); [|done|..].
  - by rewrite take_drop_splice.
  - apply list_lookup_insert_eq. by eapply lookup_lt_Some.
  - rewrite length_splice; lia.
Qed.

Lemma view_splice_out arrs a arr s p vs :
  ptr s = Some a → arrs !! a = Some arr →
  off s + len s ≤ p → p + length vs ≤ length arr →
  view (<[a := splice arr p vs]> arrs) s
  = Some (take (len s) (drop (off s) arr)).
Proof.
  intros Hp Ha H1 H2.
  rewrite (view_Some _ _ a (splice arr p vs)); [|done|..].
  - by rewrite take_drop_splice_out.
  - apply list_lookup_insert_eq. by eapply lookup_lt_Some.
  - rewrite length_splice; lia.
Qed.

(** [append] within the capacity writes in place *)
Lemma append_in_place st s vs a arr :
  ptr s = Some a → arrays st !! a = Some arr →
  off s + cap s = length arr → len s + length vs ≤ cap s →
  append s vs st
  = Some (Slice (Some a) (off s) (len s + length vs) (cap s),
          Store (<[a := splice arr (off s + len s) vs]> (arrays st)) (objs st)).
Proof.
  intros Hp Ha Hc Hle. unfold append.
  rewrite (proj2 (Nat.leb_le _ _) Hle), Hp. unfold bind.
  by rewrite (store_at_eq _ _ _ _ arr) by (done || lia).
Qed.

(** [append] in general: the result holds the old elements and the new,
    in the old array or in a fresh one *)
Lemma wp_append st s vs l (Q : slice → store T → Prop) :
  slice_ok (arrays st) s = true → view (arrays st) s = Some l →
  (∀ s' st',
     objs st' = objs st →
     frame_arrays (ptr s) (arrays st) (arrays st') →
     slice_ok (arrays st') s' = true →
     view (arrays st') s' = Some (l ++ vs) →
     (∀ a, ptr s' = Some a → ptr s = Some a ∨ length (arrays st) ≤ a) →
     Q s' st') →
  wp (append s vs) st Q.
Proof.
  intros Hok Hv HQ.
  destruct (decide (len s + length vs ≤ cap s)) as [Hle|Hgt].
  - destruct (ptr s) as [a|] eqn:Hp.
    + destruct (slice_ok_Some _ _ _ Hok Hp) as (arr & Ha & Hc & Hlc).
      destruct (view_inv _ _ _ _ Hv Hp) as (? & ? & _ & ->). simplify_eq.
      eapply wp_eq; [by apply (append_in_place _ _ _ a arr)|].
      apply HQ; simpl; [done| |..].
      * apply (frame_insert _ _ arr); [done|].
        rewrite length_splice; lia.
      * eapply slice_ok_intro; simpl; [done|..].
        -- apply list_lookup_insert_eq. by eapply lookup_lt_Some.
        -- rewrite length_splice; lia.
        -- lia.
      * rewrite (view_splice_in _ a arr); simpl; [|done|done|lia..].
        f_equal. replace (off s + len s - off s) with (len s) by lia.
        rewrite splice_take_tail; [done|]. rewrite length_drop. lia.
      * eauto.
    + destruct (slice_ok_None _ _ Hok Hp) as (_ & Hl & Hc).
      assert (vs = []) as -> by (apply length_zero_iff_nil; lia).
      assert (l = []) as ->.
      { apply length_zero_iff_nil. rewrite (view_length _ _ _ Hv). lia. }
      unfold append. rewrite Hp, Hl, Hc. simpl.
      apply HQ; [done|apply frame_refl|done|done|].
      intros a. rewrite Hp. done.
  - unfold append. rewrite (proj2 (Nat.leb_gt _ _)) by lia.
    set (n := len s + length vs). set (c := growcap n (cap s)).
    assert (n ≤ c) as Hnc by apply growcap_ge.
    assert (length l = len s) as Hll by by eapply view_length.
    apply wp_bind. eapply wp_eq; [by apply load_eq|].
    apply wp_bind. eapply wp_eq; [done|].
    apply wp_bind. eapply wp_eq.
    { apply (store_at_eq _ _ _ _ (replicate c zero)); simpl.
      - apply list_lookup_middle. done.
      - rewrite length_app, length_replicate. simpl. lia. }
    simpl. apply wp_ret. apply HQ; simpl; [done|..].
    + apply frame_insert_fresh; [apply frame_alloc|done].
    + eapply slice_ok_intro; simpl; [done|apply lookup_fresh|..].
      * rewrite length_splice; rewrite ?length_app, ?length_replicate; simpl; lia.
      * done.
    + rewrite (view_Some _ _ (length (arrays st))
                 (splice (replicate c zero) 0 (l ++ vs))); simpl.
      * f_equal. unfold splice. simpl. rewrite drop_0.
        rewrite take_app_length'; [done|]. rewrite length_app. simpl. lia.
      * done.
      * apply lookup_fresh.
      * rewrite length_splice; rewrite ?length_app, ?length_replicate; simpl; lia.
    + intros a [= <-]. by right.
Qed.

End Steps.

(** ** The methods, one by one *)

Section Methods.
Context {T : Type} `{!Elem T} `{!Growth}.
Implicit Types (st : store T) (s d : slice) (l vs arr : list T).
Implicit Types (arrs : list (list T)) (q a : nat).

Lemma others_kept_refl q st : others_kept q st st.
Proof. split; eauto. Qed.

Lemma others_kept_trans q st1 st2 st3 :
  others_kept q st1 st2 → others_kept q st2 st3 → others_kept q st1 st3.
Proof. intros [H1 H1'] [H2 H2']. split; [congruence|eauto]. Qed.

(** The one place where separation is argued: a step that writes only the
    array of [q] and gives [q] a header in that array or in a new one. *)
Lemma step_ok st arrs' q o s' l' :
  wf st → objs st !! q = Some o →
  frame_arrays (ptr (data o)) (arrays st) arrs' →
  slice_ok arrs' s' = true →
  (∀ a, ptr s' = Some a → ptr (data o) = Some a ∨ length (arrays st) ≤ a) →
  view arrs' s' = Some l' →
  let st' := Store arrs' (<[q := MkQueue s']> (objs st)) in
  wf st' ∧ contents st' q = Some l' ∧ others_kept q st st'.
Proof.
  intros Hwf Hq Hf Hok Hp Hv' st'.
  assert (q < length (objs st)) as Hlt by by eapply lookup_lt_Some.
  assert (objs st' !! q = Some (MkQueue s')) as Hq'
    by by apply list_lookup_insert_eq.
  assert (∀ q', q' ≠ q → objs st' !! q' = objs st !! q') as Hne
    by (intros; by apply list_lookup_insert_ne).
  split_and!.
  - apply wf_iff. split.
    + intros q' o' Hq'o. destruct (decide (q' = q)) as [->|Hn].
      * by simplify_eq.
      * rewrite Hne in Hq'o by done.
        eapply slice_ok_frame; [done|]. by eapply wf_slice_ok.
    + assert (∀ q2 o2 a, q2 ≠ q → objs st !! q2 = Some o2 →
                ptr s' = Some a → ptr (data o2) = Some a → False) as Hx.
      { intros q2 o2 a Hn H2 Hp1 Hp2. destruct (Hp _ Hp1) as [Hold|Hnew].
        - destruct Hn. by eapply (wf_no_alias st q2 q).
        - destruct (slice_ok_Some _ _ _ (wf_slice_ok _ _ _ Hwf H2) Hp2)
            as (arr & Ha%lookup_lt_Some & _). lia. }
      intros q1 q2 o1 o2 a H1 H2 Hp1 Hp2.
      destruct (decide (q1 = q)) as [->|Hn1], (decide (q2 = q)) as [->|Hn2];
        [done|..].
      * rewrite Hne in H2 by done. simplify_eq. destruct (Hx _ _ _ Hn2 H2 Hp1 Hp2).
      * rewrite Hne in H1 by done. simplify_eq. destruct (Hx _ _ _ Hn1 H1 Hp2 Hp1).
      * rewrite Hne in H1, H2 by done. by eapply (wf_no_alias st).
  - unfold contents. by rewrite Hq'.
  - split; [apply length_insert|].
    intros q' l2 Hn (o' & Hq'o & Hv)%contents_inv.
    eapply contents_intro; [by rewrite Hne|].
    eapply view_frame; [done..|].
    intros a Hpa Heq. destruct Hn. symmetry in Heq.
    by eapply (wf_no_alias st q' q).
Qed.

(** *** Size and IsEmpty *)

Lemma Size_eq st q o :
  objs st !! q = Some o → Size q st = Some (go_len (data o), st).
Proof. intros Hq. unfold Size, bind. by rewrite (get_data_eq _ _ o). Qed.

Lemma IsEmpty_eq st q o :
  objs st !! q = Some o → IsEmpty q st = Some ((go_len (data o) =? 0)%Z, st).
Proof. intros Hq. unfold IsEmpty, bind. by rewrite (get_data_eq _ _ o). Qed.

Lemma Size_contents st q l :
  contents st q = Some l → Size q st = Some (Z.of_nat (length l), st).
Proof.
  intros (o & Hq & Hv)%contents_inv. rewrite (Size_eq _ _ o) by done.
  unfold go_len. by rewrite (view_length _ _ _ Hv).
Qed.

Lemma IsEmpty_contents st q l :
  contents st q = Some l →
  IsEmpty q st = Some (bool_decide (l = []), st).
Proof.
  intros (o & Hq & Hv)%contents_inv. rewrite (IsEmpty_eq _ _ o) by done.
  unfold go_len. rewrite <-(view_length _ _ _ Hv). do 2 f_equal.
  by destruct l.
Qed.

(** *** Enqueue *)

Lemma Enqueue_spec st q l v :
  wf st → contents st q = Some l →
  wp (Enqueue q v) st (λ _ st',
    wf st' ∧ contents st' q = Some (l ++ [v]) ∧ others_kept q st st').
Proof.
  intros Hwf (o & Hq & Hv)%contents_inv. unfold Enqueue.
  apply wp_bind. eapply wp_eq; [by apply get_data_eq|].
  apply wp_bind. apply (wp_append _ _ _ l); [by eapply wf_slice_ok|done|].
  intros s' st' Ho Hf Hok Hv' Hp.
  eapply wp_eq.
  { apply set_data_eq. rewrite Ho. by eapply lookup_lt_Some. }
  simpl. rewrite Ho. by apply (step_ok st _ q o).
Qed.

(** *** Dequeue, Front, PeekLast *)

Lemma Dequeue_empty st q :
  contents st q = Some [] →
  Dequeue q st = Some ((zero, fmt_Errorf "empty queue"), st).
Proof.
  intros Hc. unfold Dequeue, bind. by rewrite (IsEmpty_contents _ _ []).
Qed.

Lemma Front_empty st q :
  contents st q = Some [] →
  Front q st = Some ((zero, fmt_Errorf "empty queue"), st).
Proof.
  intros Hc. unfold Front, bind. by rewrite (IsEmpty_contents _ _ []).
Qed.

Lemma PeekLast_empty st q :
  contents st q = Some [] →
  PeekLast q st = Some ((zero, fmt_Errorf "empty queue"), st).
Proof.
  intros Hc. unfold PeekLast, bind. by rewrite (IsEmpty_contents _ _ []).
Qed.

Lemma Front_cons st q x l :
  contents st q = Some (x :: l) → Front q st = Some ((x, nil_error), st).
Proof.
  intros Hc. unfold Front, bind. rewrite (IsEmpty_contents _ _ (x :: l)) by done.
  simpl. destruct (contents_inv _ _ _ Hc) as (o & Hq & Hv).
  rewrite (get_data_eq _ _ o) by done.
  by rewrite (index_eq _ _ (x :: l) 0 x).
Qed.

Lemma PeekLast_snoc st q l x :
  contents st q = Some (l ++ [x]) → PeekLast q st = Some ((x, nil_error), st).
Proof.
  intros Hc. unfold PeekLast, bind.
  rewrite (IsEmpty_contents _ _ (l ++ [x])) by done.
  rewrite bool_decide_eq_false_2 by (by destruct l).
  destruct (contents_inv _ _ _ Hc) as (o & Hq & Hv).
  rewrite (get_data_eq _ _ o), (Size_contents _ _ (l ++ [x])) by done.
  rewrite (index_eq _ _ (l ++ [x]) _ x); [done..| |].
  - rewrite length_app. simpl. lia.
  - rewrite length_app. simpl.
    replace (Z.to_nat _) with (length l) by lia.
    by rewrite lookup_app_r, Nat.sub_diag.
Qed.

(** the view of a sub-slice *)
Lemma view_reslice arrs s l lo hi :
  slice_ok arrs s = true → view arrs s = Some l → lo ≤ hi → hi ≤ len s →
  let s' := Slice (ptr s) (off s + lo) (hi - lo) (cap s - lo) in
  slice_ok arrs s' = true ∧ view arrs s' = Some (take (hi - lo) (drop lo l)).
Proof.
  intros Hok Hv H1 H2 s'. destruct (ptr s) as [a|] eqn:Hp.
  - destruct (slice_ok_Some _ _ _ Hok Hp) as (arr & Ha & Hc & Hlc).
    destruct (view_inv _ _ _ _ Hv Hp) as (? & ? & ? & ->). simplify_eq. split.
    + eapply slice_ok_intro; subst s'; simpl; [done..|lia|lia].
    + rewrite (view_Some _ s' a arr); subst s'; simpl; [|done|done|lia].
      f_equal. apply list_eq. intros i.
      rewrite !lookup_take, !lookup_drop, lookup_take, lookup_drop.
      repeat case_decide; try lia; try done. f_equal; lia.
  - destruct (slice_ok_None _ _ Hok Hp) as (Ho & Hl & Hc).
    assert (lo = 0 ∧ hi = 0) as [-> ->] by lia.
    subst s'. unfold slice_ok, view. simpl. by rewrite Ho, Hc.
Qed.

Lemma Dequeue_cons st q x l :
  wf st → contents st q = Some (x :: l) →
  wp (Dequeue q) st (λ r st',
    r = (x, nil_error) ∧ wf st' ∧ contents st' q = Some l ∧ others_kept q st st').
Proof.
  intros Hwf Hc. destruct (contents_inv _ _ _ Hc) as (o & Hq & Hv).
  pose proof (wf_slice_ok _ _ _ Hwf Hq) as Hok.
  pose proof (view_length _ _ _ Hv) as Hlen. simpl in Hlen.
  unfold Dequeue.
  apply wp_bind. eapply wp_eq; [by apply (IsEmpty_contents _ _ (x :: l))|].
  simpl.
  apply wp_bind. eapply wp_eq; [by apply get_data_eq|].
  apply wp_bind. eapply wp_eq; [by apply (index_eq _ _ (x :: l) 0 x)|].
  assert (len (data o) ≤ cap (data o)) as Hlc.
  { destruct (ptr (data o)) as [a|] eqn:Hp.
    - by destruct (slice_ok_Some _ _ _ Hok Hp) as (? & ? & ? & ?).
    - destruct (slice_ok_None _ _ Hok Hp) as (? & ? & ?). lia. }
  apply wp_bind. eapply wp_eq.
  { apply reslice_eq; unfold go_len; lia. }
  apply wp_bind. eapply wp_eq.
  { apply set_data_eq. by eapply lookup_lt_Some. }
  apply wp_ret.
  destruct (view_reslice _ _ _ 1 (len (data o)) Hok Hv) as [Hok' Hv'];
    [lia|lia|].
  unfold go_len. rewrite Nat2Z.id. change (Z.to_nat 1) with 1.
  split; [done|].
  apply (step_ok st _ q o); simpl; [done|done|apply frame_refl|done|eauto|].
  rewrite Hv'. simpl. rewrite drop_0. by rewrite take_ge by lia.
Qed.

(** *** Clear *)

Lemma Clear_eq st q :
  q < length (objs st) →
  Clear q st
  = Some (tt, Store (arrays st ++ [[]])
                    (<[q := MkQueue (Slice (Some (length (arrays st))) 0 0 0)]>
                       (objs st))).
Proof.
  intros Hq. unfold Clear, bind. rewrite make_eq by done. simpl.
  by rewrite set_data_eq.
Qed.

Lemma Clear_spec st q l :
  wf st → contents st q = Some l →
  wp (Clear q) st (λ _ st',
    wf st' ∧ contents st' q = Some [] ∧ others_kept q st st').
Proof.
  intros Hwf (o & Hq & Hv)%contents_inv.
  eapply wp_eq; [apply Clear_eq; by eapply lookup_lt_Some|].
  apply (step_ok st _ q o); simpl; [done|done|apply frame_alloc|..].
  - eapply slice_ok_intro; simpl; [done|by apply list_lookup_middle|done..].
  - intros a [= <-]. by right.
  - rewrite (view_Some _ _ (length (arrays st)) []); simpl;
      [done|done|by apply list_lookup_middle|lia].
Qed.

(** *** Contains *)

Lemma slices_Index_loop_eq st s v l2 : ∀ l1 n,
  view (arrays st) s = Some (l1 ++ l2) → n = length l2 →
  ∃ r, slices_Index_loop n s (Z.of_nat (length l1)) v st = Some (r, st)
       ∧ (0 <=? r)%Z = bool_decide (v ∈ l2).
Proof.
  induction l2 as [|e l2 IH]; intros l1 n Hv ->.
  - exists (-1)%Z. split; [done|].
    by rewrite bool_decide_eq_false_2 by apply not_elem_of_nil.
  - cbn [length slices_Index_loop]. unfold bind. rewrite (index_eq _ _ (l1 ++ e :: l2) _ e); [|done|lia|].
    2:{ rewrite Nat2Z.id. by apply list_lookup_middle. }
    destruct (decide (v = e)) as [->|Hne].
    + eexists. split; [done|].
      rewrite bool_decide_eq_true_2 by (apply elem_of_cons; by left).
      apply Z.leb_le. lia.
    + destruct (IH (l1 ++ [e]) (length l2)) as (r & Hr & Hb);
        [by rewrite <-app_assoc|done|].
      rewrite length_app, Nat2Z.inj_add in Hr. simpl in Hr.
      exists r. split; [done|]. rewrite Hb.
      apply bool_decide_ext. rewrite elem_of_cons.
      split; [by right|by intros [?|?]].
Qed.

Lemma Contains_contents st q l v :
  contents st q = Some l → Contains q v st = Some (bool_decide (v ∈ l), st).
Proof.
  intros (o & Hq & Hv)%contents_inv.
  unfold Contains, slices_Contains, slices_Index, bind.
  rewrite (get_data_eq _ _ o) by done.
  destruct (slices_Index_loop_eq st (data o) v l [] (len (data o)))
    as (r & Hr & Hb); [done|by erewrite view_length|].
  change (Z.of_nat (length [])) with 0%Z in Hr.
  rewrite Hr. unfold ret. by rewrite Hb.
Qed.

(** *** Remove *)

(** [slices.Delete] on a slice with a backing array: the elements after
    position [j] move down to [i] within the array, the header keeps its
    array, offset and capacity. *)
Lemma wp_slices_Delete st s l a arr (i j : nat) (Q : slice → store T → Prop) :
  ptr s = Some a → arrays st !! a = Some arr →
  slice_ok (arrays st) s = true → view (arrays st) s = Some l →
  i < j → j ≤ len s →
  (∀ s' arr',
     ptr s' = Some a → off s' = off s → cap s' = cap s →
     len s' = len s - (j - i) →
     length arr' = length arr →
     take (len s') (drop (off s') arr') = take i l ++ drop j l →
     Q s' (Store (<[a := arr']> (arrays st)) (objs st))) →
  wp (slices_Delete s (Z.of_nat i) (Z.of_nat j)) st Q.
Proof.
  intros Hp Ha Hok Hv Hij Hj HQ.
  destruct (slice_ok_Some _ _ _ Hok Hp) as (? & ? & Hc & Hlc).
  destruct (view_inv _ _ _ _ Hv Hp) as (? & ? & _ & ->). simplify_eq.
  set (vs := take (len s - j) (drop (off s + j) arr)).
  assert (length vs = len s - j) as Hvs
    by (subst vs; rewrite length_take, length_drop; lia).
  unfold slices_Delete, go_len.
  rewrite (proj2 (Z.leb_le 0 _)), (proj2 (Z.leb_le (Z.of_nat i) _)),
    (proj2 (Z.leb_le (Z.of_nat j) _)) by lia. simpl.
  rewrite (proj2 (Z.eqb_neq _ _)) by lia.
  apply wp_bind. eapply wp_eq; [apply reslice_eq; lia|].
  apply wp_bind. eapply wp_eq; [apply reslice_eq; lia|].
  rewrite !Nat2Z.id. change (Z.to_nat 0) with 0.
  rewrite Nat.add_0_r, !Nat.sub_0_r.
  apply wp_bind. eapply wp_eq.
  { apply load_eq. by apply (view_Some _ _ a arr); simpl; [..|lia]. }
  simpl. fold vs.
  apply wp_bind. eapply wp_eq.
  { apply (append_in_place _ _ _ a arr); simpl; [done..|lia]. }
  simpl.
  apply wp_bind. eapply wp_eq; [apply reslice_eq; simpl; lia|].
  simpl. rewrite !Nat2Z.id.
  unfold clear. simpl.
  apply wp_bind. eapply wp_eq.
  { eapply store_at_eq; simpl.
    - apply list_lookup_insert_eq. by eapply lookup_lt_Some.
    - rewrite length_replicate, length_splice; lia. }
  apply wp_ret. simpl. rewrite list_insert_insert_eq.
  apply HQ; simpl; [done|done|done|lia| |].
  - rewrite !length_splice; rewrite ?length_replicate, ?length_splice; lia.
  - rewrite (take_drop_splice_out _ _ _ _ _)
      by (rewrite ?length_replicate, ?length_splice; lia).
    rewrite take_drop_splice by lia.
    replace (off s + i - off s) with i by lia.
    unfold splice.
    rewrite take_take, Nat.min_l by lia.
    rewrite (drop_ge (take _ _)) by (rewrite length_take, length_drop; lia).
    rewrite app_nil_r. f_equal.
    + by rewrite take_take, Nat.min_l by lia.
    + subst vs. apply list_eq. intros k.
      rewrite lookup_take, !lookup_drop, lookup_take, lookup_drop.
      repeat case_decide; try lia; try done. f_equal; lia.
Qed.

Lemma Remove_loop_spec st q o x l2 : ∀ l1 n,
  wf st → objs st !! q = Some o →
  view (arrays st) (data o) = Some (l1 ++ l2) →
  x ∉ l1 → n = length l2 →
  wp (Remove_loop n q (data o) (Z.of_nat (length l1)) x) st (λ r st',
    ((x ∉ l2) ∧ r = false ∧ st' = st) ∨
    (∃ l2a l2b, l2 = l2a ++ x :: l2b ∧ (x ∉ l2a) ∧ r = true ∧ wf st'
       ∧ contents st' q = Some (l1 ++ l2a ++ l2b) ∧ others_kept q st st')).
Proof.
  induction l2 as [|y l2 IH]; intros l1 n Hwf Hq Hv Hx ->; simpl.
  - apply wp_ret. left. split_and!; [apply not_elem_of_nil|done..].
  - apply wp_bind. eapply wp_eq.
    { apply (index_eq _ _ (l1 ++ y :: l2) _ y); [done|lia|].
      rewrite Nat2Z.id. by apply list_lookup_middle. }
    destruct (decide (y = x)) as [->|Hne].
    + apply wp_bind. eapply wp_eq; [by apply get_data_eq|].
      pose proof (wf_slice_ok _ _ _ Hwf Hq) as Hok.
      pose proof (view_length _ _ _ Hv) as Hlen.
      rewrite length_app in Hlen. simpl in Hlen.
      destruct (view_nil_ptr _ (data o) _ (length l1) x Hv) as [a Hp];
        [by apply list_lookup_middle|].
      destruct (slice_ok_Some _ _ _ Hok Hp) as (arr & Ha & Hc & Hlc).
      replace (Z.of_nat (length l1) + 1)%Z with (Z.of_nat (S (length l1))) by lia.
      apply wp_bind.
      apply (wp_slices_Delete _ _ (l1 ++ x :: l2) a arr); [done..|lia|lia|].
      intros s' arr' Hp' Ho' Hc' Hl' Hla Htd.
      apply wp_bind. eapply wp_eq.
      { apply set_data_eq. simpl. by eapply lookup_lt_Some. }
      apply wp_ret. right. exists [], l2. simpl.
      split; [done|]. split; [apply not_elem_of_nil|]. split; [done|].
      apply (step_ok st _ q o); [done|done|..].
      * rewrite Hp. by apply (frame_insert _ _ arr).
      * eapply slice_ok_intro; [done|..].
        -- apply list_lookup_insert_eq. by eapply lookup_lt_Some.
        -- lia.
        -- lia.
      * intros b Hb. left. congruence.
      * rewrite (view_Some _ _ a arr'); [|done|..].
        -- rewrite Htd. f_equal. rewrite take_app_length. f_equal.
           replace (l1 ++ x :: l2) with ((l1 ++ [x]) ++ l2)
             by (by rewrite <-app_assoc).
           apply drop_app_length'. rewrite length_app. simpl. lia.
        -- apply list_lookup_insert_eq. by eapply lookup_lt_Some.
        -- lia.
    + eapply wp_mono.
      { replace (Z.of_nat (length l1) + 1)%Z
          with (Z.of_nat (length (l1 ++ [y]))) by (rewrite length_app; simpl; lia).
        apply (IH (l1 ++ [y]) (length l2)); [done|done| | |done].
        - by rewrite <-app_assoc.
        - rewrite not_elem_of_app, not_elem_of_cons.
          split_and!; [done|done|apply not_elem_of_nil]. }
      intros r st' [(Hn & -> & ->)|(l2a & l2b & -> & Hn & -> & Hw & Hc & Hk)].
      * left. split_and!; [|done..]. rewrite not_elem_of_cons. done.
      * right. exists (y :: l2a), l2b.
        split_and!; [done| |done|done| |done].
        -- rewrite not_elem_of_cons. done.
        -- by rewrite <-app_assoc in Hc.
Qed.

Lemma Remove_spec st q l x :
  wf st → contents st q = Some l →
  wp (Remove q x) st (λ r st',
    ((x ∉ l) ∧ r = false ∧ st' = st) ∨
    (∃ l1 l2, l = l1 ++ x :: l2 ∧ (x ∉ l1) ∧ r = true ∧ wf st'
       ∧ contents st' q = Some (l1 ++ l2) ∧ others_kept q st st')).
Proof.
  intros Hwf (o & Hq & Hv)%contents_inv. unfold Remove.
  apply wp_bind. eapply wp_eq; [by apply get_data_eq|].
  apply (Remove_loop_spec st q o x l [] (len (data o)));
    [done|done|done|apply not_elem_of_nil|by erewrite view_length].
Qed.

(** *** Reverse *)

Lemma store_insert_id st a arr :
  arrays st !! a = Some arr → Store (<[a := arr]> (arrays st)) (objs st) = st.
Proof. intros Ha. rewrite list_insert_id by done. by destruct st. Qed.

Lemma Reverse_loop_done st q fuel i j :
  (j ≤ i)%Z → Reverse_loop fuel q i j st = Some (tt, st).
Proof.
  intros Hij. destruct fuel; simpl; by rewrite (proj2 (Z.ltb_ge i j)) by lia.
Qed.

Lemma Reverse_loop_spec q o a : ∀ fuel st arr i j,
  objs st !! q = Some o → ptr (data o) = Some a → arrays st !! a = Some arr →
  off (data o) + len (data o) ≤ length arr →
  (0 ≤ i)%Z → (i + j = go_len (data o) - 1)%Z → (j - i ≤ 2 * Z.of_nat fuel)%Z →
  ∃ arr',
    Reverse_loop fuel q i j st
    = Some (tt, Store (<[a := arr']> (arrays st)) (objs st))
    ∧ length arr' = length arr
    ∧ ∀ k, arr' !! k
           = mirrored arr (Z.of_nat (off (data o)) + i) (Z.of_nat (off (data o)) + j) k.
Proof.
  set (d := data o).
  assert (∀ fuel st arr i j,
    arrays st !! a = Some arr → (j ≤ i)%Z → (i + j = go_len d - 1)%Z →
    ∃ arr', Reverse_loop fuel q i j st
            = Some (tt, Store (<[a := arr']> (arrays st)) (objs st))
            ∧ length arr' = length arr
            ∧ ∀ k, arr' !! k
                   = mirrored arr (Z.of_nat (off d) + i) (Z.of_nat (off d) + j) k)
    as Hdone.
  { intros fuel st arr i j Ha Hij Hsum. exists arr.
    rewrite Reverse_loop_done, store_insert_id by done.
    split_and!; [done..|]. intros k. unfold mirrored.
    case_decide; [|done]. f_equal. lia. }
  induction fuel as [|fuel IH]; intros st arr i j Hq Hp Ha Hle Hi Hsum Hfuel.
  { apply Hdone; [done|lia|done]. }
  destruct (Z.ltb_spec i j) as [Hlt|Hge]; [|by apply Hdone].
  unfold go_len in Hsum. fold d in Hp, Hle, Hsum.
  destruct (lookup_lt_is_Some_2 arr (off d + Z.to_nat j)) as [x Hx]; [lia|].
  destruct (lookup_lt_is_Some_2 arr (off d + Z.to_nat i)) as [y Hy]; [lia|].
  assert (view (arrays st) d = Some (take (len d) (drop (off d) arr))) as Hv
    by by apply (view_Some _ _ a).
  set (arr1 := <[off d + Z.to_nat i := x]> arr).
  set (arr2 := <[off d + Z.to_nat j := y]> arr1).
  set (st2 := Store (<[a := arr2]> (arrays st)) (objs st)).
  destruct (IH st2 arr2 (i + 1)%Z (j - 1)%Z) as (arr' & Hrun & Hlen & Hmir);
    [done|done|..].
  { simpl. apply list_lookup_insert_eq. by eapply lookup_lt_Some. }
  { subst arr2 arr1. rewrite !length_insert. done. }
  { lia. } { unfold go_len. fold d. lia. } { lia. }
  exists arr'. split_and!.
  - cbn [Reverse_loop]. rewrite (proj2 (Z.ltb_lt i j)) by done.
    unfold bind. rewrite (get_data_eq _ _ o) by done. fold d.
    rewrite (index_eq _ _ _ j x Hv), (index_eq _ _ _ i y Hv);
      [|lia|rewrite lookup_take_lt, lookup_drop by lia; done
       |lia|rewrite lookup_take_lt, lookup_drop by lia; done].
    rewrite (set_index_eq _ _ _ _ a arr) by (done || unfold go_len; lia).
    rewrite (set_index_eq _ _ _ _ a arr1).
    + simpl. rewrite list_insert_insert_eq. fold arr2. fold st2.
      rewrite Hrun. subst st2. simpl. by rewrite list_insert_insert_eq.
    + done.
    + simpl. apply list_lookup_insert_eq. by eapply lookup_lt_Some.
    + subst arr1. rewrite length_insert. done.
    + unfold go_len. lia.
  - rewrite Hlen. subst arr2 arr1. by rewrite !length_insert.
  - intros k. rewrite Hmir. unfold mirrored. subst arr2 arr1.
    rewrite !list_lookup_insert, !length_insert.
    repeat case_decide; try lia;
      first [ rewrite <-Hx; f_equal; lia
            | rewrite <-Hy; f_equal; lia
            | f_equal; lia ].
Qed.

Lemma Reverse_small st q l :
  contents st q = Some l → length l ≤ 1 → Reverse q st = Some (tt, st).
Proof.
  intros Hc Hl. unfold Reverse, bind. rewrite (Size_contents _ _ l) by done.
  apply Reverse_loop_done. lia.
Qed.

Lemma Reverse_spec st q l :
  wf st → contents st q = Some l →
  wp (Reverse q) st (λ _ st',
    wf st' ∧ contents st' q = Some (reverse l) ∧ others_kept q st st').
Proof.
  intros Hwf Hc. destruct (contents_inv _ _ _ Hc) as (o & Hq & Hv).
  pose proof (wf_slice_ok _ _ _ Hwf Hq) as Hok.
  pose proof (view_length _ _ _ Hv) as Hlen.
  destruct (ptr (data o)) as [a|] eqn:Hp.
  - destruct (slice_ok_Some _ _ _ Hok Hp) as (arr & Ha & Hcap & Hlc).
    destruct (view_inv _ _ _ _ Hv Hp) as (? & ? & _ & Hl). simplify_eq.
    destruct (Reverse_loop_spec q o a (len (data o)) st arr 0
                (go_len (data o) - 1)) as (arr' & Hrun & Hlen' & Hmir);
      [done|done|done|lia|lia|lia|unfold go_len; lia|].
    unfold Reverse. apply wp_bind. eapply wp_eq; [by apply Size_eq|].
    unfold go_len in *. rewrite Nat2Z.id.
    eapply wp_eq; [done|].
    rewrite <-(list_insert_id (objs st) q (MkQueue (data o)))
      by (by destruct o).
    apply (step_ok st _ q o); [done|done|..].
    + rewrite Hp. by apply (frame_insert _ _ arr).
    + eapply slice_ok_intro; [done|..].
      * apply list_lookup_insert_eq. by eapply lookup_lt_Some.
      * lia.
      * done.
    + intros b Hb. left. congruence.
    + rewrite (view_Some _ _ a arr'); [|done|..].
      * f_equal. apply list_eq. intros k.
        rewrite lookup_take, lookup_drop, Hmir. unfold mirrored.
        destruct (decide (k < len (data o))) as [Hk|Hk].
        -- rewrite reverse_lookup by (rewrite length_take, length_drop; lia).
           rewrite length_take, length_drop, lookup_take_lt, lookup_drop by lia.
           case_decide; [|lia]. f_equal. lia.
        -- symmetry. apply lookup_ge_None.
           rewrite length_reverse, length_take, length_drop. lia.
      * apply list_lookup_insert_eq. by eapply lookup_lt_Some.
      * lia.
  - destruct (slice_ok_None _ _ Hok Hp) as (_ & Hl0 & _).
    assert (l = []) as -> by (apply length_zero_iff_nil; lia).
    eapply wp_eq; [apply (Reverse_small _ _ []); [done|simpl; lia]|].
    split_and!; [done|done|apply others_kept_refl].
Qed.

(** *** ToSlice and Copy *)

Lemma insert_fresh {A} (xs : list A) (x y : A) :
  <[length xs := y]> (xs ++ [x]) = xs ++ [y].
Proof.
  replace (length xs) with (length xs + 0) at 1 by lia.
  by rewrite insert_app_r.
Qed.

Lemma copy_fresh st src l :
  view (arrays st) src = Some l →
  copy (Slice (Some (length (arrays st))) 0 (length l) (length l)) src
       (Store (arrays st ++ [replicate (length l) zero]) (objs st))
  = Some (Z.of_nat (length l), Store (arrays st ++ [l]) (objs st)).
Proof.
  intros Hv. pose proof (view_length _ _ _ Hv) as Hlen.
  unfold copy, bind. rewrite (load_eq _ _ l).
  2:{ simpl. eapply view_frame; [apply (frame_alloc None)|done|done]. }
  simpl. rewrite <-Hlen, Nat.min_id, take_ge by done.
  rewrite (store_at_eq _ _ _ _ (replicate (length l) zero)); simpl.
  - unfold splice. simpl.
    rewrite drop_ge, app_nil_r by (by rewrite length_replicate).
    by rewrite insert_fresh.
  - by apply list_lookup_middle.
  - by rewrite length_replicate.
Qed.

Lemma ToSlice_eq st q l :
  contents st q = Some l →
  ToSlice q st
  = Some (Slice (Some (length (arrays st))) 0 (length l) (length l),
          Store (arrays st ++ [l]) (objs st)).
Proof.
  intros Hc. destruct (contents_inv _ _ _ Hc) as (o & Hq & Hv).
  unfold ToSlice, bind. rewrite (Size_contents _ _ l) by done.
  rewrite make_eq by lia. rewrite Nat2Z.id.
  rewrite (get_data_eq _ _ o) by done.
  by rewrite copy_fresh.
Qed.

Lemma Copy_eq st q l :
  contents st q = Some l →
  Copy q st
  = Some (length (objs st),
          Store (arrays st ++ [l])
                (objs st ++ [MkQueue (Slice (Some (length (arrays st))) 0
                                            (length l) (length l))])).
Proof.
  intros Hc. destruct (contents_inv _ _ _ Hc) as (o & Hq & Hv).
  unfold Copy, bind. rewrite (Size_contents _ _ l) by done.
  rewrite make_eq by lia. rewrite Nat2Z.id.
  rewrite (get_data_eq _ _ o) by done.
  by rewrite copy_fresh.
Qed.

(** a new array, and possibly a new queue in it, disturb nothing *)
Lemma contents_alloc st arr0 os q l :
  contents st q = Some l →
  contents (Store (arrays st ++ [arr0]) (objs st ++ os)) q = Some l.
Proof.
  intros (o & Hq & Hv)%contents_inv.
  eapply contents_intro; simpl.
  - by apply lookup_app_l_Some.
  - eapply view_frame; [apply (frame_alloc None)|done|done].
Qed.

Lemma contents_alloc_array st arr0 q l :
  contents st q = Some l →
  contents (Store (arrays st ++ [arr0]) (objs st)) q = Some l.
Proof.
  intros Hc. rewrite <-(app_nil_r (objs st)). by apply contents_alloc.
Qed.

Lemma view_fresh arrs l n c :
  n = length l → c = length l →
  view (arrs ++ [l]) (Slice (Some (length arrs)) 0 n c) = Some l.
Proof.
  intros -> ->.
  rewrite (view_Some _ _ (length arrs) l); simpl;
    [|done|by apply list_lookup_middle|done].
  by rewrite drop_0, firstn_all.
Qed.

Lemma wf_alloc st arr0 :
  wf st → wf (Store (arrays st ++ [arr0]) (objs st)).
Proof.
  intros Hwf. apply wf_iff. simpl. split.
  - intros q o Hq. eapply slice_ok_frame; [apply (frame_alloc None)|].
    by eapply wf_slice_ok.
  - intros. by eapply (wf_no_alias st).
Qed.

Lemma wf_new_obj st l :
  wf st →
  wf (Store (arrays st ++ [l])
            (objs st ++ [MkQueue (Slice (Some (length (arrays st))) 0
                                        (length l) (length l))])).
Proof.
  intros Hwf. apply wf_iff. simpl.
  assert (∀ q o, objs st !! q = Some o →
            ptr (data o) ≠ Some (length (arrays st))) as Hfresh.
  { intros q o Hq Hp.
    destruct (slice_ok_Some _ _ _ (wf_slice_ok _ _ _ Hwf Hq) Hp)
      as (? & ?%lookup_lt_Some & _). lia. }
  split.
  - intros q o [[_ Hq]|[-> <-]]%lookup_snoc_Some.
    + eapply slice_ok_frame; [apply (frame_alloc None)|].
      by eapply wf_slice_ok.
    + eapply slice_ok_intro; simpl; [done|by apply list_lookup_middle|done..].
  - intros q1 q2 o1 o2 a [[_ H1]|[-> <-]]%lookup_snoc_Some
      [[_ H2]|[-> <-]]%lookup_snoc_Some Hp1 Hp2; simpl in *.
    + by eapply (wf_no_alias st).
    + simplify_eq. by destruct (Hfresh _ _ H1).
    + simplify_eq. by destruct (Hfresh _ _ H2).
    + done.
Qed.

(** *** String *)

Lemma String_contents st q l :
  contents st q = Some l →
  String q st = Some ("Queue: " +:+ fmt_slice l, st).
Proof.
  intros (o & Hq & Hv)%contents_inv. unfold String, bind.
  by rewrite (get_data_eq _ _ o), (load_eq _ _ l).
Qed.

End Methods.

(** ** Properties of the package *)

Section Properties.
Context {T : Type} `{!Elem T} `{!Growth}.
Implicit Types (st : store T) (s d r : slice) (l vs arr : list T).
Implicit Types (arrs : list (list T)) (q c a : nat).

Lemma NewQueue_spec st :
  wf st →
  wp NewQueue st (λ q st',
    q = length (objs st) ∧ wf st' ∧ contents st' q = Some [] ∧
    ∀ q' l, contents st q' = Some l → contents st' q' = Some l).
Proof.
  intros Hwf. unfold wp, NewQueue, new_obj. simpl. split_and!; [done|..].
  - apply wf_iff. simpl. split.
    + intros q o [[_ Hq]|[-> <-]]%lookup_snoc_Some; [|done].
      by eapply wf_slice_ok.
    + intros q1 q2 o1 o2 a [[_ H1]|[-> <-]]%lookup_snoc_Some
        [[_ H2]|[-> <-]]%lookup_snoc_Some Hp1 Hp2; try done.
      by eapply (wf_no_alias st).
  - eapply contents_intro; simpl; [by apply list_lookup_middle|done].
  - intros q' l (o & Hq & Hv)%contents_inv.
    eapply contents_intro; simpl; [by apply lookup_app_l_Some|done].
Qed.

Lemma enqueue_all_spec q vs : ∀ st l,
  wf st → contents st q = Some l →
  wp (enqueue_all q vs) st (λ _ st',
    wf st' ∧ contents st' q = Some (l ++ vs) ∧ others_kept q st st').
Proof.
  induction vs as [|v vs IH]; intros st l Hwf Hc; simpl.
  - apply wp_ret. rewrite app_nil_r. eauto using others_kept_refl.
  - apply wp_bind. eapply wp_mono; [by apply Enqueue_spec|].
    intros _ st1 (Hwf1 & Hc1 & Hk1). simpl.
    eapply wp_mono; [by apply IH|].
    intros _ st2 (Hwf2 & Hc2 & Hk2). simpl.
    rewrite <-app_assoc in Hc2. eauto using others_kept_trans.
Qed.

Lemma dequeue_n_spec q vs : ∀ st l,
  wf st → contents st q = Some (vs ++ l) →
  wp (dequeue_n q (length vs)) st (λ rs st',
    rs = (λ v, (v, nil_error)) <$> vs ∧ wf st' ∧ contents st' q = Some l
    ∧ others_kept q st st').
Proof.
  induction vs as [|v vs IH]; intros st l Hwf Hc; simpl.
  - apply wp_ret. eauto using others_kept_refl.
  - apply wp_bind. eapply wp_mono; [by apply Dequeue_cons|].
    intros r st1 (-> & Hwf1 & Hc1 & Hk1). simpl.
    apply wp_bind. eapply wp_mono; [by apply IH|].
    intros rs st2 (-> & Hwf2 & Hc2 & Hk2). simpl.
    apply wp_ret. eauto using others_kept_trans.
Qed.

(** C1. FIFO law: whatever values are enqueued into a new queue, as many
    calls of Dequeue all succeed and return them in the order in which
    they were enqueued. *)
Theorem fifo_law st vs :
  wf st →
  ∃ st', fifo_program vs st = Some ((λ v, (v, nil_error)) <$> vs, st').
Proof.
  intros Hwf.
  assert (wp (fifo_program vs) st (λ rs _, rs = (λ v, (v, nil_error)) <$> vs))
    as Hwp.
  { unfold fifo_program. apply wp_bind.
    eapply wp_mono; [by apply NewQueue_spec|].
    intros q st1 (_ & Hwf1 & Hc1 & _). simpl.
    apply wp_bind. eapply wp_mono; [by apply enqueue_all_spec|].
    intros _ st2 (Hwf2 & Hc2 & _). simpl in *.
    eapply wp_mono.
    { apply (dequeue_n_spec q vs st2 []); [done|by rewrite app_nil_r]. }
    by intros rs st3 (-> & _). }
  apply wp_elim in Hwp as (rs & st' & Hrun & ->). eauto.
Qed.

(** C2. On a queue of size zero Dequeue, Front and PeekLast return the zero
    value and the error "empty queue" and leave the store as it was; on a
    queue of another size each of them returns a nil error. *)
Theorem empty_queue_error st q n :
  Size q st = Some (n, st) →
  (n = 0%Z →
     Dequeue q st = Some ((zero, fmt_Errorf "empty queue"), st) ∧
     Front q st = Some ((zero, fmt_Errorf "empty queue"), st) ∧
     PeekLast q st = Some ((zero, fmt_Errorf "empty queue"), st)) ∧
  (wf st → n ≠ 0%Z →
     (∃ v st', Dequeue q st = Some ((v, nil_error), st')) ∧
     (∃ v, Front q st = Some ((v, nil_error), st)) ∧
     (∃ v, PeekLast q st = Some ((v, nil_error), st))).
Proof.
  intros Hsize.
  assert (∃ o, objs st !! q = Some o ∧ n = go_len (data o)) as (o & Hq & ->).
  { unfold Size, bind, get_data in Hsize.
    destruct (objs st !! q) as [o|]; [|done]. exists o.
    unfold ret in Hsize. by simplify_eq. }
  split.
  - intros Hn. unfold Dequeue, Front, PeekLast, bind.
    rewrite (IsEmpty_eq _ _ o), Hn by done. done.
  - intros Hwf Hn.
    destruct (wf_contents _ _ _ Hwf Hq) as [l Hc].
    destruct (contents_inv _ _ _ Hc) as (? & ? & Hv). simplify_eq.
    pose proof (view_length _ _ _ Hv) as Hlen. unfold go_len in Hn.
    split_and!.
    + destruct l as [|x l]; [simpl in Hlen; lia|].
      destruct (wp_elim _ _ _ (Dequeue_cons _ _ _ _ Hwf Hc))
        as (r & st' & Hrun & -> & _). eauto.
    + destruct l as [|x l]; [simpl in Hlen; lia|].
      exists x. by apply (Front_cons _ _ x l).
    + destruct l as [|x l _] using rev_ind; [simpl in Hlen; lia|].
      exists x. by apply (PeekLast_snoc _ _ l x).
Qed.

(** C3. Remove of a value that the queue holds returns true and deletes
    its first occurrence, the other elements keep their order; if that was
    the only occurrence, Contains then returns false.  Remove of a value
    that the queue does not hold returns false and changes nothing. *)
Theorem Remove_first_occurrence st q l x :
  wf st → contents st q = Some l →
  (x ∈ l →
     ∃ l1 l2 st',
       l = l1 ++ x :: l2 ∧ (x ∉ l1) ∧
       Remove q x st = Some (true, st') ∧ wf st' ∧
       contents st' q = Some (l1 ++ l2) ∧
       ((x ∉ l2) → Contains q x st' = Some (false, st'))) ∧
  ((x ∉ l) → Remove q x st = Some (false, st)).
Proof.
  intros Hwf Hc.
  destruct (wp_elim _ _ _ (Remove_spec _ _ _ x Hwf Hc)) as (r & st' & Hrun & Hpost).
  destruct Hpost as [(Hn & -> & ->)|(l1 & l2 & -> & Hn & -> & Hwf' & Hc' & _)].
  - split; [done|]. by intros _.
  - split.
    + intros _. exists l1, l2, st'. split_and!; [done..|].
      intros Hn2. rewrite (Contains_contents _ _ (l1 ++ l2)) by done.
      rewrite bool_decide_eq_false_2; [done|].
      rewrite not_elem_of_app. done.
    + intros []. rewrite elem_of_app, elem_of_cons. eauto.
Qed.

Lemma run_ops_spec q ops : ∀ st l,
  wf st → contents st q = Some l →
  wp (run_ops q ops) st (λ j st',
    wf st' ∧ ∃ l', contents st' q = Some l' ∧
      Z.of_nat (length l')
      = (Z.of_nat (length l) + Z.of_nat (length (List.filter is_enqueue ops))
         - Z.of_nat j)%Z).
Proof.
  induction ops as [|[v|] ops IH]; intros st l Hwf Hc; simpl.
  - apply wp_ret. split; [done|]. exists l. split; [done|lia].
  - apply wp_bind. eapply wp_mono; [by apply Enqueue_spec|].
    intros _ st1 (Hwf1 & Hc1 & _). simpl.
    eapply wp_mono; [by apply IH|].
    intros j st2 (Hwf2 & l' & Hc2 & Hlen). simpl in *.
    split; [done|]. exists l'. split; [done|].
    rewrite length_app in Hlen. simpl in Hlen. lia.
  - apply wp_bind. destruct l as [|x l].
    + eapply wp_eq; [by apply Dequeue_empty|].
      apply wp_bind. eapply wp_mono; [by apply (IH st [])|].
      intros j st2 (Hwf2 & l' & Hc2 & Hlen). simpl in *.
      apply wp_ret. split; [done|]. exists l'. split; [done|lia].
    + eapply wp_mono; [by apply Dequeue_cons|].
      intros r st1 (-> & Hwf1 & Hc1 & _). simpl.
      apply wp_bind. eapply wp_mono; [by apply IH|].
      intros j st2 (Hwf2 & l' & Hc2 & Hlen). simpl in *.
      apply wp_ret. split; [done|]. exists l'. split; [done|lia].
Qed.

(** C4. After k calls of Enqueue and j successful calls of Dequeue on a new
    queue, in any order, Size returns k - j; on every queue IsEmpty returns
    true exactly when Size returns 0, and Size is never negative. *)
Theorem Size_counts st ops :
  wf st →
  (∃ j n e st',
     size_program ops st = Some ((j, n, e), st') ∧
     n = (Z.of_nat (length (List.filter is_enqueue ops)) - Z.of_nat j)%Z) ∧
  (∀ q o, objs st !! q = Some o →
     ∃ n e, Size q st = Some (n, st) ∧ IsEmpty q st = Some (e, st) ∧
            (e = true ↔ n = 0%Z) ∧ (0 ≤ n)%Z).
Proof.
  intros Hwf. split.
  - assert (wp (size_program ops) st (λ res _,
        snd (fst res) = (Z.of_nat (length (List.filter is_enqueue ops))
                         - Z.of_nat (fst (fst res)))%Z)) as Hwp.
    { unfold size_program. apply wp_bind.
      eapply wp_mono; [by apply NewQueue_spec|].
      intros q st1 (_ & Hwf1 & Hc1 & _). simpl.
      apply wp_bind. eapply wp_mono; [by apply run_ops_spec|].
      intros j st2 (Hwf2 & l' & Hc2 & Hlen). simpl in *.
      apply wp_bind. eapply wp_eq; [by apply Size_contents|].
      apply wp_bind. eapply wp_eq; [by apply IsEmpty_contents|].
      apply wp_ret. simpl. lia. }
    apply wp_elim in Hwp as ([[j n] e] & st' & Hrun & Hn). simpl in Hn.
    by exists j, n, e, st'.
  - intros q o Hq. exists (go_len (data o)), (go_len (data o) =? 0)%Z.
    split_and!; [by apply Size_eq|by apply IsEmpty_eq|apply Z.eqb_eq|].
    unfold go_len. lia.
Qed.

Lemma ToSlice_spec st q l :
  wf st → contents st q = Some l →
  wp (ToSlice q) st (λ r st',
    r = Slice (Some (length (arrays st))) 0 (length l) (length l) ∧
    st' = Store (arrays st ++ [l]) (objs st) ∧
    wf st' ∧ view (arrays st') r = Some l ∧
    ∀ q' l', contents st q' = Some l' → contents st' q' = Some l').
Proof.
  intros Hwf Hc. eapply wp_eq; [by apply ToSlice_eq|].
  split_and!; [done|done|by apply wf_alloc|by apply view_fresh|].
  intros q' l' Hc'. by apply contents_alloc_array.
Qed.

Lemma Copy_spec st q l :
  wf st → contents st q = Some l →
  wp (Copy q) st (λ c st',
    c = length (objs st) ∧ wf st' ∧ contents st' c = Some l ∧
    ∀ q' l', contents st q' = Some l' → contents st' q' = Some l').
Proof.
  intros Hwf Hc. eapply wp_eq; [by apply Copy_eq|].
  split_and!; [done|by apply wf_new_obj| |].
  - eapply contents_intro; simpl; [by apply list_lookup_middle|].
    by apply view_fresh.
  - intros q' l' Hc'. by apply contents_alloc.
Qed.

(** C5. Reverse never fails; the slice that ToSlice returns after it is the
    reversal of the slice that ToSlice returned before it, a second Reverse
    restores the order, and on a queue of at most one element Reverse
    changes nothing. *)
Theorem Reverse_involution st q l :
  wf st → contents st q = Some l →
  (∃ st', reverse_program q st = Some ((l, reverse l, l), st')) ∧
  (length l ≤ 1 → Reverse q st = Some (tt, st)).
Proof.
  intros Hwf Hc. split; [|by apply Reverse_small].
  assert (wp (reverse_program q) st (λ res _, res = (l, reverse l, l))) as Hwp.
  { unfold reverse_program.
    apply wp_bind. eapply wp_mono; [by apply ToSlice_spec|].
    intros s0 st1 (_ & _ & Hwf1 & Hv1 & Hk1). simpl.
    apply wp_bind. eapply wp_eq; [by apply load_eq|].
    apply wp_bind. eapply wp_mono; [apply Reverse_spec; eauto|].
    intros _ st2 (Hwf2 & Hc2 & _). simpl.
    apply wp_bind. eapply wp_mono; [by apply ToSlice_spec|].
    intros s1 st3 (_ & _ & Hwf3 & Hv3 & Hk3). simpl.
    apply wp_bind. eapply wp_eq; [by apply load_eq|].
    apply wp_bind. eapply wp_mono; [apply Reverse_spec; eauto|].
    intros _ st4 (Hwf4 & Hc4 & _). simpl.
    apply wp_bind. eapply wp_mono; [by apply ToSlice_spec|].
    intros s2 st5 (_ & _ & Hwf5 & Hv5 & Hk5). simpl.
    apply wp_bind. eapply wp_eq; [by apply load_eq|].
    apply wp_ret. by rewrite reverse_involutive. }
  apply wp_elim in Hwp as (res & st' & Hrun & ->). eauto.
Qed.

Lemma mutate_spec st q l m :
  wf st → contents st q = Some l →
  wp (mutate q m) st (λ _ st',
    wf st' ∧ is_Some (contents st' q) ∧ others_kept q st st').
Proof.
  intros Hwf Hc. destruct m as [v| | |v|]; simpl.
  - eapply wp_mono; [by apply Enqueue_spec|].
    intros _ st' (? & ? & ?). eauto.
  - apply wp_bind. destruct l as [|x l].
    + eapply wp_eq; [by apply Dequeue_empty|]. apply wp_ret.
      eauto using others_kept_refl.
    + eapply wp_mono; [by apply Dequeue_cons|].
      intros res st' (_ & ? & ? & ?). apply wp_ret. eauto.
  - eapply wp_mono; [by apply (Clear_spec _ _ l)|].
    intros _ st' (? & ? & ?). eauto.
  - apply wp_bind. eapply wp_mono; [by apply Remove_spec|].
    intros res st' [(_ & _ & ->)|(l1 & l2 & _ & _ & _ & ? & ? & ?)];
      apply wp_ret; eauto using others_kept_refl.
  - eapply wp_mono; [by apply Reverse_spec|].
    intros _ st' (? & ? & ?). eauto.
Qed.

Lemma mutate_both_spec q c ms : ∀ st,
  wf st → q ≠ c → is_Some (contents st q) → is_Some (contents st c) →
  wp (mutate_both q c ms) st (λ _ st',
    wf st' ∧ is_Some (contents st' q) ∧ is_Some (contents st' c)).
Proof.
  induction ms as [|[b m] ms IH]; intros st Hwf Hne [lq Hq] [lc Hc]; simpl.
  - apply wp_ret. eauto.
  - apply wp_bind. destruct b.
    + eapply wp_mono; [by apply (mutate_spec _ _ lq)|].
      intros _ st1 (Hwf1 & Hq1 & _ & Hk). simpl.
      apply IH; eauto.
    + eapply wp_mono; [by apply (mutate_spec _ _ lc)|].
      intros _ st1 (Hwf1 & Hc1 & _ & Hk). simpl.
      apply IH; eauto.
Qed.

Lemma get_data_None st q {A} (k : slice → M T A) :
  objs st !! q = None → (let* d := get_data q in k d) st = None.
Proof. intros Hq. unfold bind, get_data. by rewrite Hq. Qed.

(** a call on a pointer that is no queue panics *)
Lemma mutate_valid st q m u st' :
  mutate q m st = Some (u, st') → is_Some (objs st !! q).
Proof.
  destruct (objs st !! q) as [o|] eqn:Hq; [done|]. intros Hrun.
  assert (mutate q m st = None) as Hnone; [|congruence].
  destruct m; simpl; unfold Enqueue, Dequeue, Clear, Remove, Reverse,
    IsEmpty, Size.
  - by apply get_data_None.
  - unfold bind at 1 2. by rewrite get_data_None.
  - unfold bind, make. simpl. unfold set_data. simpl.
    apply lookup_ge_None in Hq.
    by rewrite (proj2 (Nat.ltb_ge _ _)) by lia.
  - unfold bind at 1. by rewrite get_data_None.
  - unfold bind at 1. by rewrite get_data_None.
Qed.

(** the invariant holds in every store that a client can build *)
Lemma reachable_wf st : reachable st → wf st.
Proof.
  induction 1 as [|st q st' _ IH Hrun|st q m u st' _ IH Hrun
                  |st q c st' _ IH Hrun|st q r st' _ IH Hrun].
  - apply wf_empty.
  - by destruct (wp_inv _ _ _ _ _ (NewQueue_spec _ IH) Hrun) as (_ & ? & _).
  - destruct (mutate_valid _ _ _ _ _ Hrun) as [o Hq].
    destruct (wf_contents _ _ _ IH Hq) as [l Hc].
    by destruct (wp_inv _ _ _ _ _ (mutate_spec _ _ _ m IH Hc) Hrun) as (? & _).
  - destruct (objs st !! q) as [o|] eqn:Hq.
    + destruct (wf_contents _ _ _ IH Hq) as [l Hc].
      by destruct (wp_inv _ _ _ _ _ (Copy_spec _ _ _ IH Hc) Hrun) as (_ & ? & _).
    + unfold Copy, Size in Hrun. unfold bind at 1 in Hrun.
      by rewrite get_data_None in Hrun.
  - destruct (objs st !! q) as [o|] eqn:Hq.
    + destruct (wf_contents _ _ _ IH Hq) as [l Hc].
      by destruct (wp_inv _ _ _ _ _ (ToSlice_spec _ _ _ IH Hc) Hrun)
        as (_ & _ & ? & _).
    + unfold ToSlice, Size in Hrun. unfold bind at 1 in Hrun.
      by rewrite get_data_None in Hrun.
Qed.

(** C6. Copy returns a new queue with the size and the elements of its
    source, and from then on, whatever mutations the two have gone through,
    one more mutation (Enqueue, Dequeue, Clear, Remove, Reverse) of either
    leaves the size and the elements of the other as they were. *)
Theorem Copy_independent st q l ms :
  wf st → contents st q = Some l →
  wp (Copy q) st (λ c st1,
    c ≠ q ∧
    contents st1 q = Some l ∧ contents st1 c = Some l ∧
    Size q st1 = Some (Z.of_nat (length l), st1) ∧
    Size c st1 = Some (Z.of_nat (length l), st1) ∧
    wp (mutate_both q c ms) st1 (λ _ st2,
      ∃ lq lc,
        contents st2 q = Some lq ∧ contents st2 c = Some lc ∧
        ∀ m,
          wp (mutate q m) st2 (λ _ st3,
            contents st3 c = Some lc ∧
            Size c st3 = Some (Z.of_nat (length lc), st3)) ∧
          wp (mutate c m) st2 (λ _ st3,
            contents st3 q = Some lq ∧
            Size q st3 = Some (Z.of_nat (length lq), st3)))).
Proof.
  intros Hwf Hc.
  eapply wp_mono; [by apply Copy_spec|].
  intros c st1 (-> & Hwf1 & Hcc & Hk). simpl.
  assert (length (objs st) ≠ q) as Hne.
  { destruct (contents_inv _ _ _ Hc) as (o & Hq%lookup_lt_Some & _). lia. }
  pose proof (Hk _ _ Hc) as Hcq.
  split_and!; [done|done|done|by apply Size_contents|by apply Size_contents|].
  eapply wp_mono; [apply mutate_both_spec; eauto|].
  intros _ st2 (Hwf2 & [lq Hq2] & [lc Hc2]). simpl.
  exists lq, lc. split_and!; [done|done|]. intros m. split.
  - eapply wp_mono; [by apply (mutate_spec _ _ lq)|].
    intros _ st3 (_ & _ & _ & Hk3). simpl.
    assert (contents st3 (length (objs st)) = Some lc) as Hc3 by eauto.
    split; [done|by apply Size_contents].
  - eapply wp_mono; [by apply (mutate_spec _ _ lc)|].
    intros _ st3 (_ & _ & _ & Hk3). simpl.
    assert (contents st3 q = Some lq) as Hq3 by eauto.
    split; [done|by apply Size_contents].
Qed.

(** writes through a slice that no queue owns *)
Lemma external_step st st' r r' :
  wf st → unowned st r → objs st' = objs st →
  frame_arrays (ptr r) (arrays st) (arrays st') →
  (∀ a, ptr r' = Some a → ptr r = Some a ∨ length (arrays st) ≤ a) →
  wf st' ∧ unowned st' r' ∧
  ∀ q l, contents st q = Some l → contents st' q = Some l.
Proof.
  intros Hwf Hun Ho Hf Hp. split_and!.
  - apply wf_iff. rewrite Ho. split.
    + intros q o Hq. eapply slice_ok_frame; [done|]. by eapply wf_slice_ok.
    + intros. by eapply (wf_no_alias st).
  - intros q o a Hq Hpa Hpo. rewrite Ho in Hq.
    destruct (Hp _ Hpa) as [Hold|Hnew].
    + by eapply Hun.
    + destruct (slice_ok_Some _ _ _ (wf_slice_ok _ _ _ Hwf Hq) Hpo)
        as (? & ?%lookup_lt_Some & _). lia.
  - intros q l (o & Hq & Hv)%contents_inv.
    eapply contents_intro; [by rewrite Ho|].
    eapply view_frame; [done..|].
    intros a Hpa Heq. by eapply Hun.
Qed.

Lemma set_index_inv st st' r i v u :
  set_index r i v st = Some (u, st') →
  objs st' = objs st ∧ frame_arrays (ptr r) (arrays st) (arrays st').
Proof.
  unfold set_index, write_at, panic.
  destruct (_ && _); [|done].
  destruct (ptr r) as [a|]; [|done].
  destruct (arrays st !! a) as [arr|] eqn:Ha; [|done].
  destruct (_ <? _); [|done]. intros [= _ <-]. simpl. split; [done|].
  apply (frame_insert _ _ arr); [done|]. apply length_insert.
Qed.

Lemma mutate_slice_frame ws : ∀ r st r' st',
  wf st → slice_ok (arrays st) r = true → unowned st r →
  mutate_slice r ws st = Some (r', st') →
  ∀ q l, contents st q = Some l → contents st' q = Some l.
Proof.
  induction ws as [|[i v|v] ws IH]; intros r st r' st' Hwf Hok Hun Hrun q l Hc;
    simpl in Hrun.
  - unfold ret in Hrun. by simplify_eq.
  - unfold bind in Hrun.
    destruct (set_index r i v st) as [[u st1]|] eqn:Hset; [|done].
    destruct (set_index_inv _ _ _ _ _ _ Hset) as [Ho Hf].
    destruct (external_step st st1 r r) as (Hwf1 & Hun1 & Hk1);
      [done|done|done|done|eauto|].
    eapply (IH r st1); eauto using slice_ok_frame.
  - unfold bind in Hrun.
    destruct (append r [v] st) as [[r1 st1]|] eqn:Happ; [|done].
    destruct (view_Some_of_ok (arrays st) r Hok) as [lr Hlr].
    assert (wp (append r [v]) st (λ r2 st2,
              objs st2 = objs st ∧
              frame_arrays (ptr r) (arrays st) (arrays st2) ∧
              slice_ok (arrays st2) r2 = true ∧
              (∀ a, ptr r2 = Some a → ptr r = Some a ∨ length (arrays st) ≤ a)))
      as Hwp.
    { apply (wp_append _ _ _ lr); [done|done|]. intros; eauto. }
    destruct (wp_inv _ _ _ _ _ Hwp Happ) as (Ho & Hf & Hok1 & Hp).
    destruct (external_step st st1 r r1) as (Hwf1 & Hun1 & Hk1); [done..|].
    eapply (IH r1 st1); eauto.
Qed.

(** C7. ToSlice returns a slice as long as the queue, with the elements of
    the queue from head to tail, in an array of its own: assignments to its
    elements, and appends to it, leave the queue as it was. *)
Theorem ToSlice_independent st q l :
  wf st → contents st q = Some l →
  ∃ r st1,
    ToSlice q st = Some (r, st1) ∧
    Size q st = Some (go_len r, st) ∧
    view (arrays st1) r = Some l ∧
    contents st1 q = Some l ∧
    (∀ i v, (0 ≤ i < go_len r)%Z →
       ∃ st2, set_index r i v st1 = Some (tt, st2) ∧
              view (arrays st2) r = Some (<[Z.to_nat i := v]> l) ∧
              contents st2 q = Some l) ∧
    (∀ ws r' st2, mutate_slice r ws st1 = Some (r', st2) →
       contents st2 q = Some l).
Proof.
  intros Hwf Hc.
  destruct (wp_elim _ _ _ (ToSlice_spec _ _ _ Hwf Hc))
    as (r & st1 & Hrun & -> & -> & Hwf1 & Hv1 & Hk1).
  eexists _, _. split_and!; [done|by apply Size_contents|done|eauto|..].
  - intros i v Hi. unfold go_len in Hi. simpl in Hi.
    eexists. split_and!.
    + eapply (set_index_eq _ _ _ _ (length (arrays st)) l); simpl;
        [done|by apply list_lookup_middle|done|done].
    + simpl. rewrite insert_fresh.
      apply view_fresh; by rewrite length_insert.
    + simpl. rewrite insert_fresh. by apply contents_alloc_array.
  - intros ws r' st2 Hws.
    eapply (mutate_slice_frame ws _ _ r' st2); [done| | |done|eauto].
    + eapply slice_ok_intro; simpl; [done|by apply list_lookup_middle|done..].
    + intros q' o a Hq' [= <-] Hp. simpl in Hq'.
      destruct (slice_ok_Some _ _ _ (wf_slice_ok _ _ _ Hwf Hq') Hp)
        as (? & ?%lookup_lt_Some & _). lia.
Qed.

Lemma read_empty st q rd :
  contents st q = Some [] →
  ∃ st', read q rd st = Some (empty_answer rd, st') ∧ contents st' q = Some [].
Proof.
  intros Hc. destruct rd as [| | | | |x| |]; simpl; unfold bind.
  - rewrite Dequeue_empty by done. eauto.
  - rewrite Front_empty by done. eauto.
  - rewrite PeekLast_empty by done. eauto.
  - rewrite (IsEmpty_contents _ _ []) by done. eauto.
  - rewrite (Size_contents _ _ []) by done. eauto.
  - rewrite (Contains_contents _ _ []) by done. eauto.
  - rewrite (ToSlice_eq _ _ []) by done.
    rewrite (load_eq _ _ []) by (by apply view_fresh).
    eexists. split; [done|]. by apply contents_alloc_array.
  - rewrite (String_contents _ _ []) by done. eauto.
Qed.

Lemma reads_empty q rs : ∀ st,
  contents st q = Some [] →
  ∃ st', reads q rs st = Some (empty_answer <$> rs, st').
Proof.
  induction rs as [|rd rs IH]; intros st Hc; simpl.
  - eexists. done.
  - destruct (read_empty _ _ rd Hc) as (st1 & Hrd & Hc1).
    destruct (IH _ Hc1) as (st2 & Hrs).
    unfold bind. rewrite Hrd, Hrs. eauto.
Qed.

(** C8. After Clear the reading methods, in any number and order, answer
    as they answer on a new queue; Dequeue, Front and PeekLast answer the
    zero value and the error "empty queue". *)
Theorem Clear_like_NewQueue st q (st0 : store T) rs :
  q < length (objs st) →
  ∃ st1 st2,
    after_Clear q rs st = Some (empty_answer <$> rs, st1) ∧
    after_NewQueue rs st0 = Some (empty_answer <$> rs, st2).
Proof.
  intros Hq. unfold after_Clear, after_NewQueue, bind.
  rewrite Clear_eq by done.
  edestruct (reads_empty q rs) as (st1 & ->).
  { eapply contents_intro; simpl.
    - by apply list_lookup_insert_eq.
    - by apply view_fresh. }
  unfold NewQueue, new_obj.
  edestruct (reads_empty (length (objs st0)) rs) as (st2 & ->).
  { eapply contents_intro; simpl; [by apply list_lookup_middle|done]. }
  eauto.
Qed.

(** C10. Contains, ToSlice, Copy, String, Size and IsEmpty leave the
    elements of the queue as they were. *)
Theorem observers_keep_elements st q l x :
  contents st q = Some l →
  (∃ b, Contains q x st = Some (b, st)) ∧
  (∃ r st', ToSlice q st = Some (r, st') ∧ contents st' q = Some l) ∧
  (∃ c st', Copy q st = Some (c, st') ∧ contents st' q = Some l) ∧
  (∃ str, String q st = Some (str, st)) ∧
  (∃ n, Size q st = Some (n, st)) ∧
  (∃ b, IsEmpty q st = Some (b, st)).
Proof.
  intros Hc. split_and!.
  - eexists. by apply Contains_contents.
  - eexists _, _. split; [by apply ToSlice_eq|]. by apply contents_alloc_array.
  - eexists _, _. split; [by apply Copy_eq|]. by apply contents_alloc.
  - eexists. by apply String_contents.
  - eexists. by apply Size_contents.
  - eexists. by apply IsEmpty_contents.
Qed.

End Properties.

(** ** The text of a queue *)

Section Format.
Context {T : Type} `{!Elem T}.

Lemma string_app_cons ch (s1 s2 : string) :
  String.String ch s1 +:+ s2 = String.String ch (s1 +:+ s2).
Proof. reflexivity. Qed.

Lemma string_app_assoc (s1 s2 s3 : string) :
  (s1 +:+ s2) +:+ s3 = s1 +:+ s2 +:+ s3.
Proof.
  induction s1 as [|ch s1 IH]; [done|]. rewrite !string_app_cons. congruence.
Qed.

Lemma string_app_nil_r (s : string) : s +:+ "" = s.
Proof.
  induction s as [|ch s IH]; [done|]. rewrite string_app_cons. congruence.
Qed.

(** past the first element, every element is written after a space *)
Lemma fmt_elems_pos (vs : list T) : ∀ i buf,
  0 < i →
  fmt_elems i vs buf
  = buf +:+ foldr (λ e acc, " " +:+ e +:+ acc) "" (fmt_v <$> vs).
Proof.
  induction vs as [|v vs IH]; intros i buf Hi; simpl.
  - by rewrite string_app_nil_r.
  - rewrite (proj2 (Nat.ltb_lt 0 i) Hi), IH by lia.
    by rewrite !string_app_assoc.
Qed.

Lemma concat_foldr (sep x : string) (xs : list string) :
  String.concat sep (x :: xs)
  = x +:+ foldr (λ e acc, sep +:+ e +:+ acc) "" xs.
Proof.
  revert x. induction xs as [|y ys IH]; intros x.
  - simpl. by rewrite string_app_nil_r.
  - change (String.concat sep (x :: y :: ys))
      with (x +:+ sep +:+ String.concat sep (y :: ys)).
    by rewrite IH.
Qed.

Lemma fmt_slice_concat (vs : list T) :
  fmt_slice vs = "[" +:+ String.concat " " (fmt_v <$> vs) +:+ "]".
Proof.
  unfold fmt_slice. destruct vs as [|v vs]; [done|].
  cbn [fmt_elems Nat.ltb Nat.leb]. rewrite fmt_elems_pos by lia.
  change (fmt_v <$> v :: vs) with (fmt_v v :: (fmt_v <$> vs)).
  rewrite concat_foldr. by rewrite !string_app_assoc.
Qed.

End Format.

(** C9. String gives "Queue: [" , the elements from head to tail as %v
    writes them with one space between neighbours, and "]"; that is
    "Queue: []" for a queue without elements and "Queue: [1 2]" after
    Enqueue(1) and Enqueue(2) on a new queue of int. *)
Theorem String_format {T} `{!Elem T} `{!Growth}
    (st : store T) (q : nat) (l : list T) (st0 : store Z) :
  contents st q = Some l → wf st0 →
  String q st
  = Some ("Queue: [" +:+ String.concat " " (fmt_v <$> l) +:+ "]", st) ∧
  (l = [] → String q st = Some ("Queue: []", st)) ∧
  (∃ st', string_example st0 = Some ("Queue: [1 2]", st')).
Proof.
  intros Hc Hwf0. split_and!.
  - rewrite (String_contents _ _ l) by done. by rewrite fmt_slice_concat.
  - intros ->. by rewrite (String_contents _ _ []).
  - assert (wp string_example st0 (λ str _, str = "Queue: [1 2]")) as Hwp.
    { unfold string_example. apply wp_bind.
      eapply wp_mono; [by apply NewQueue_spec|].
      intros q0 st1 (_ & Hwf1 & Hc1 & _). simpl.
      apply wp_bind. eapply wp_mono; [by apply Enqueue_spec|].
      intros _ st2 (Hwf2 & Hc2 & _). simpl.
      apply wp_bind. eapply wp_mono; [by apply Enqueue_spec|].
      intros _ st3 (Hwf3 & Hc3 & _). simpl.
      eapply wp_eq; [by apply String_contents|]. done. }
    apply wp_elim in Hwp as (str & st' & Hrun & ->). eauto.
Qed.

(** ** The properties at work on [demo_store] and on the empty store *)

Lemma fifo_law_witness :
  wf (@empty_store Z) ∧
  ∃ st', fifo_program [10; 20; 30]%Z empty_store
         = Some ([(10, nil_error); (20, nil_error); (30, nil_error)]%Z, st').
Proof. split; [reflexivity|]. apply (fifo_law (T:=Z)). reflexivity. Defined.

Lemma empty_queue_error_witness :
  (Dequeue 0 demo_store = Some ((0%Z, fmt_Errorf "empty queue"), demo_store) ∧
   Front 0 demo_store = Some ((0%Z, fmt_Errorf "empty queue"), demo_store) ∧
   PeekLast 0 demo_store = Some ((0%Z, fmt_Errorf "empty queue"), demo_store)) ∧
  ((∃ v st', Dequeue 1 demo_store = Some ((v, nil_error), st')) ∧
   (∃ v, Front 1 demo_store = Some ((v, nil_error), demo_store)) ∧
   (∃ v, PeekLast 1 demo_store = Some ((v, nil_error), demo_store))).
Proof.
  split.
  - exact (proj1 (empty_queue_error demo_store 0 0%Z eq_refl) eq_refl).
  - apply (proj2 (empty_queue_error demo_store 1 2%Z eq_refl));
      [reflexivity|discriminate].
Defined.

Lemma Remove_first_occurrence_witness :
  wf demo_store ∧ contents demo_store 1 = Some [20; 30]%Z ∧
  ∃ l1 l2 st',
    [20; 30]%Z = l1 ++ 30%Z :: l2 ∧ (30%Z ∉ l1) ∧
    Remove 1 30%Z demo_store = Some (true, st') ∧ wf st' ∧
    contents st' 1 = Some (l1 ++ l2) ∧
    ((30%Z ∉ l2) → Contains 1 30%Z st' = Some (false, st')).
Proof.
  split; [reflexivity|]. split; [reflexivity|].
  apply (proj1 (Remove_first_occurrence demo_store 1 [20; 30]%Z 30%Z
                  eq_refl eq_refl)).
  apply list_elem_of_further, list_elem_of_here.
Defined.

Lemma Size_counts_witness :
  wf (@empty_store Z) ∧
  ∃ j n e st',
    size_program [OpEnqueue 1%Z; OpDequeue; OpDequeue; OpEnqueue 2%Z;
                  OpEnqueue 3%Z] empty_store
    = Some ((j, n, e), st') ∧
    n = (3 - Z.of_nat j)%Z.
Proof.
  split; [reflexivity|].
  apply (proj1 (Size_counts (T:=Z) empty_store
                  [OpEnqueue 1%Z; OpDequeue; OpDequeue; OpEnqueue 2%Z;
                   OpEnqueue 3%Z] eq_refl)).
Defined.

Lemma Reverse_involution_witness :
  wf demo_store ∧ contents demo_store 1 = Some [20; 30]%Z ∧
  ∃ st', reverse_program 1 demo_store
         = Some (([20; 30]%Z, [30; 20]%Z, [20; 30]%Z), st').
Proof.
  split; [reflexivity|]. split; [reflexivity|].
  apply (proj1 (Reverse_involution demo_store 1 [20; 30]%Z eq_refl eq_refl)).
Defined.

Lemma Copy_independent_witness :
  wf demo_store ∧ contents demo_store 1 = Some [20; 30]%Z ∧
  wp (Copy 1) demo_store (λ c st1,
    c ≠ 1 ∧
    contents st1 1 = Some [20; 30]%Z ∧ contents st1 c = Some [20; 30]%Z ∧
    Size 1 st1 = Some (2%Z, st1) ∧
    Size c st1 = Some (2%Z, st1) ∧
    wp (mutate_both 1 c [(true, MEnqueue 7%Z); (false, MDequeue)]) st1
      (λ _ st2,
        ∃ lq lc,
          contents st2 1 = Some lq ∧ contents st2 c = Some lc ∧
          ∀ m,
            wp (mutate 1 m) st2 (λ _ st3,
              contents st3 c = Some lc ∧
              Size c st3 = Some (Z.of_nat (length lc), st3)) ∧
            wp (mutate c m) st2 (λ _ st3,
              contents st3 1 = Some lq ∧
              Size 1 st3 = Some (Z.of_nat (length lq), st3)))).
Proof.
  split; [reflexivity|]. split; [reflexivity|].
  apply (Copy_independent demo_store 1 [20; 30]%Z
           [(true, MEnqueue 7%Z); (false, MDequeue)]); reflexivity.
Defined.

Lemma ToSlice_independent_witness :
  wf demo_store ∧ contents demo_store 1 = Some [20; 30]%Z ∧
  ∃ r st1,
    ToSlice 1 demo_store = Some (r, st1) ∧
    Size 1 demo_store = Some (go_len r, demo_store) ∧
    view (arrays st1) r = Some [20; 30]%Z ∧
    contents st1 1 = Some [20; 30]%Z ∧
    (∀ i v, (0 ≤ i < go_len r)%Z →
       ∃ st2, set_index r i v st1 = Some (tt, st2) ∧
              view (arrays st2) r = Some (<[Z.to_nat i := v]> [20; 30]%Z) ∧
              contents st2 1 = Some [20; 30]%Z) ∧
    (∀ ws r' st2, mutate_slice r ws st1 = Some (r', st2) →
       contents st2 1 = Some [20; 30]%Z).
Proof.
  split; [reflexivity|]. split; [reflexivity|].
  apply (ToSlice_independent demo_store 1 [20; 30]%Z); reflexivity.
Defined.

Lemma Clear_like_NewQueue_witness :
  1 < length (objs demo_store) ∧
  ∃ st1 st2,
    after_Clear 1 [RDequeue; RSize; RToSlice; RString] demo_store
    = Some ([OElem 0%Z (fmt_Errorf "empty queue"); OInt 0; OSlice false [] 0;
             OString "Queue: []"], st1) ∧
    after_NewQueue [RDequeue; RSize; RToSlice; RString] (@empty_store Z)
    = Some ([OElem 0%Z (fmt_Errorf "empty queue"); OInt 0; OSlice false [] 0;
             OString "Queue: []"], st2).
Proof.
  split; [simpl; lia|].
  refine (Clear_like_NewQueue demo_store 1 empty_store
            [RDequeue; RSize; RToSlice; RString] _).
  simpl; lia.
Defined.

Lemma observers_keep_elements_witness :
  contents demo_store 1 = Some [20; 30]%Z ∧
  (∃ b, Contains 1 20%Z demo_store = Some (b, demo_store)) ∧
  (∃ r st', ToSlice 1 demo_store = Some (r, st')
            ∧ contents st' 1 = Some [20; 30]%Z) ∧
  (∃ c st', Copy 1 demo_store = Some (c, st')
            ∧ contents st' 1 = Some [20; 30]%Z) ∧
  (∃ str, String 1 demo_store = Some (str, demo_store)) ∧
  (∃ n, Size 1 demo_store = Some (n, demo_store)) ∧
  (∃ b, IsEmpty 1 demo_store = Some (b, demo_store)).
Proof.
  split; [reflexivity|].
  apply (observers_keep_elements demo_store 1 [20; 30]%Z 20%Z). reflexivity.
Defined.

Lemma String_format_witness :
  contents demo_store 1 = Some [20; 30]%Z ∧ wf (@empty_store Z) ∧
  String 1 demo_store = Some ("Queue: [20 30]", demo_store) ∧
  (∃ st', string_example empty_store = Some ("Queue: [1 2]", st')).
Proof.
  split; [reflexivity|]. split; [reflexivity|].
  destruct (String_format demo_store 1 [20; 30]%Z empty_store eq_refl eq_refl)
    as (Hs & _ & Hex).
  split; [exact Hs|exact Hex].
Defined.

(** ** queue_test.go: what the tests expect is what the programs return *)

Example TestEnqueueAndDequeue_passes :
  fst <$> TestEnqueueAndDequeue empty_store
  = Some (true, 3%Z, false, (10%Z, nil_error), (20%Z, nil_error),
          (30%Z, nil_error), (0%Z, fmt_Errorf "empty queue")).
Proof. reflexivity. Qed.

Example TestFront_passes :
  fst <$> TestFront empty_store
  = Some (("", fmt_Errorf "empty queue"), ("foo", nil_error), ("foo", nil_error)).
Proof. reflexivity. Qed.

Example TestPeekLast_passes :
  fst <$> TestPeekLast empty_store
  = Some ((0%Z, fmt_Errorf "empty queue"), (2%Z, nil_error)).
Proof. reflexivity. Qed.

Example TestClear_passes :
  fst <$> TestClear empty_store
  = Some (true, 0%Z, (0%Z, fmt_Errorf "empty queue")).
Proof. reflexivity. Qed.

Example TestCopy_passes :
  fst <$> TestCopy empty_store = Some (2%Z, 2%Z, 3%Z, 2%Z).
Proof. reflexivity. Qed.

Example TestReverse_passes :
  fst <$> TestReverse empty_store = Some [3; 2; 1]%Z.
Proof. reflexivity. Qed.

Example TestContains_passes :
  fst <$> TestContains empty_store = Some (true, false).
Proof. vm_compute. reflexivity. Qed.

Example TestRemove_passes :
  fst <$> TestRemove empty_store = Some (true, false, false, [1; 3]%Z).
Proof. reflexivity. Qed.

Example TestString_passes :
  fst <$> string_example (@empty_store Z) = Some "Queue: [1 2]".
Proof. reflexivity. Qed.

(** ** Calls against the list model, and what a call may touch *)

Section CallFacts.
Context {T : Type} `{!Elem T} `{!Growth}.
Implicit Types (st : store T) (s d r : slice) (l : list T) (q a : nat).

Lemma remove_first_notin (x : T) l : (x ∉ l) → remove_first x l = l.
Proof.
  induction l as [|y l IH]; [done|]. intros [Hne Hn]%not_elem_of_cons. simpl.
  destruct (decide (y = x)); [congruence|]. by rewrite IH.
Qed.

Lemma remove_first_split (x : T) l1 l2 :
  (x ∉ l1) → remove_first x (l1 ++ x :: l2) = l1 ++ l2.
Proof.
  induction l1 as [|y l1 IH]; simpl.
  - intros _. by destruct (decide (x = x)).
  - intros [Hne Hn]%not_elem_of_cons.
    destruct (decide (y = x)); [congruence|]. by rewrite IH.
Qed.

Lemma others_kept_alloc st q arr0 :
  others_kept q st (Store (arrays st ++ [arr0]) (objs st)).
Proof. split; [done|]. intros q' l' _ Hc. by apply contents_alloc_array. Qed.

Lemma read_model st q l (rd : @read_op T) :
  wf st → contents st q = Some l →
  wp (read q rd) st (λ o st',
    o = fst (list_read l rd) ∧ wf st' ∧
    contents st' q = Some (snd (list_read l rd)) ∧ others_kept q st st').
Proof.
  intros Hwf Hc. destruct rd as [| | | | |x| |]; simpl; apply wp_bind.
  - destruct l as [|x l].
    + eapply wp_eq; [by apply Dequeue_empty|]. apply wp_ret.
      eauto using others_kept_refl.
    + eapply wp_mono; [by apply Dequeue_cons|].
      intros res st' (-> & ? & ? & ?). apply wp_ret. eauto.
  - destruct l as [|x l].
    + eapply wp_eq; [by apply Front_empty|]. apply wp_ret.
      eauto using others_kept_refl.
    + eapply wp_eq; [by apply (Front_cons _ _ x l)|]. apply wp_ret.
      eauto using others_kept_refl.
  - destruct l as [|x l _] using rev_ind.
    + eapply wp_eq; [by apply PeekLast_empty|]. apply wp_ret.
      eauto using others_kept_refl.
    + eapply wp_eq; [by apply (PeekLast_snoc _ _ l x)|]. apply wp_ret.
      simpl. rewrite last_snoc. eauto using others_kept_refl.
  - eapply wp_eq; [by apply IsEmpty_contents|]. apply wp_ret.
    eauto using others_kept_refl.
  - eapply wp_eq; [by apply Size_contents|]. apply wp_ret.
    eauto using others_kept_refl.
  - eapply wp_eq; [by apply Contains_contents|]. apply wp_ret.
    eauto using others_kept_refl.
  - eapply wp_eq; [by apply ToSlice_eq|].
    apply wp_bind. eapply wp_eq; [apply load_eq; by apply view_fresh|].
    apply wp_ret. simpl. split_and!;
      [done|by apply wf_alloc|by apply contents_alloc_array
      |apply others_kept_alloc].
  - eapply wp_eq; [by apply String_contents|]. apply wp_ret. simpl.
    rewrite fmt_slice_concat. eauto using others_kept_refl.
Qed.

Lemma call_model st q l (c : @call T) :
  wf st → contents st q = Some l →
  wp (do_call q c) st (λ o st',
    o = fst (list_call l c) ∧ wf st' ∧
    contents st' q = Some (snd (list_call l c)) ∧ others_kept q st st').
Proof.
  intros Hwf Hc. destruct c as [rd|v| |x|]; simpl; apply wp_bind.
  - eapply wp_mono; [by apply read_model|].
    intros o st' (-> & ? & ? & ?). apply wp_ret. eauto.
  - eapply wp_mono; [by apply Enqueue_spec|].
    intros _ st' (? & ? & ?). apply wp_ret. eauto.
  - eapply wp_mono; [by apply (Clear_spec _ _ l)|].
    intros _ st' (? & ? & ?). apply wp_ret. eauto.
  - eapply wp_mono; [by apply Remove_spec|].
    intros b st' [(Hn & -> & ->)|(l1 & l2 & -> & Hn & -> & ? & ? & ?)];
      apply wp_ret.
    + rewrite bool_decide_eq_false_2, remove_first_notin by done.
      eauto using others_kept_refl.
    + rewrite bool_decide_eq_true_2, remove_first_split; [eauto|done|].
      rewrite elem_of_app, elem_of_cons. eauto.
  - eapply wp_mono; [by apply Reverse_spec|].
    intros _ st' (? & ? & ?). apply wp_ret. eauto.
Qed.

Lemma calls_model q (cs : list (@call T)) : ∀ st l,
  wf st → contents st q = Some l →
  wp (calls q cs) st (λ os st',
    os = fst (list_calls l cs) ∧ wf st' ∧
    contents st' q = Some (snd (list_calls l cs)) ∧ others_kept q st st').
Proof.
  induction cs as [|c cs IH]; intros st l Hwf Hc; simpl.
  - apply wp_ret. eauto using others_kept_refl.
  - apply wp_bind. eapply wp_mono; [by apply call_model|].
    intros o st1 (-> & Hwf1 & Hc1 & Hk1). simpl.
    apply wp_bind. eapply wp_mono; [by apply IH|].
    intros os st2 (-> & Hwf2 & Hc2 & Hk2). simpl.
    apply wp_ret. eauto using others_kept_trans.
Qed.

(** *** What a mutation touches *)

Lemma touches_refl st q o : objs st !! q = Some o → touches q st st.
Proof.
  intros Hq. exists o, o. split_and!; [done| |apply frame_refl|eauto].
  symmetry. by apply list_insert_id.
Qed.

Lemma in_place_refl st q o : objs st !! q = Some o → in_place q st st.
Proof. intros Hq. split; [done|]. by exists o, o. Qed.

Lemma Enqueue_touches st q o v :
  wf st → objs st !! q = Some o →
  wp (Enqueue q v) st (λ _ st', touches q st st').
Proof.
  intros Hwf Hq. pose proof (wf_slice_ok _ _ _ Hwf Hq) as Hok.
  destruct (view_Some_of_ok _ _ Hok) as [l Hv]. unfold Enqueue.
  apply wp_bind. eapply wp_eq; [by apply get_data_eq|].
  apply wp_bind. apply (wp_append _ _ _ l); [done|done|].
  intros s' st' Ho Hf Hok' Hv' Hp.
  eapply wp_eq.
  { apply set_data_eq. rewrite Ho. by eapply lookup_lt_Some. }
  exists o, (MkQueue s'). simpl. rewrite Ho. done.
Qed.

Lemma Dequeue_touches st q o :
  wf st → objs st !! q = Some o →
  wp (Dequeue q) st (λ _ st',
    touches q st st' ∧ in_place q st st' ∧ arrays st' = arrays st).
Proof.
  intros Hwf Hq. pose proof (wf_slice_ok _ _ _ Hwf Hq) as Hok.
  destruct (view_Some_of_ok _ _ Hok) as [l Hv].
  pose proof (contents_intro _ _ _ _ Hq Hv) as Hc.
  destruct l as [|x l].
  { eapply wp_eq; [by apply Dequeue_empty|].
    eauto using touches_refl, in_place_refl. }
  pose proof (view_length _ _ _ Hv) as Hlen. simpl in Hlen.
  assert (len (data o) ≤ cap (data o)) as Hlc.
  { destruct (ptr (data o)) as [a|] eqn:Hp.
    - by destruct (slice_ok_Some _ _ _ Hok Hp) as (? & ? & ? & ?).
    - destruct (slice_ok_None _ _ Hok Hp) as (? & ? & ?). lia. }
  unfold Dequeue.
  apply wp_bind. eapply wp_eq; [by apply (IsEmpty_contents _ _ (x :: l))|].
  simpl.
  apply wp_bind. eapply wp_eq; [by apply get_data_eq|].
  apply wp_bind. eapply wp_eq; [by apply (index_eq _ _ (x :: l) 0 x)|].
  apply wp_bind. eapply wp_eq.
  { apply reslice_eq; unfold go_len; lia. }
  apply wp_bind. eapply wp_eq.
  { apply set_data_eq. by eapply lookup_lt_Some. }
  apply wp_ret. split; [|split; [split; [done|]|done]].
  - eexists o, _. simpl. split_and!; [done|done|apply frame_refl|eauto].
  - eexists o, _. simpl.
    split_and!; [done|apply list_lookup_insert_eq; by eapply lookup_lt_Some|done].
Qed.

Lemma Clear_touches st q o :
  objs st !! q = Some o → wp (Clear q) st (λ _ st', touches q st st').
Proof.
  intros Hq. eapply wp_eq; [apply Clear_eq; by eapply lookup_lt_Some|].
  eexists o, _. simpl. split_and!; [done|done|apply frame_alloc|].
  intros a [= <-]. by right.
Qed.

Lemma Remove_loop_touches st q o (x : T) l2 : ∀ l1 n,
  wf st → objs st !! q = Some o →
  view (arrays st) (data o) = Some (l1 ++ l2) → n = length l2 →
  wp (Remove_loop n q (data o) (Z.of_nat (length l1)) x) st (λ _ st',
    touches q st st' ∧ in_place q st st').
Proof.
  induction l2 as [|y l2 IH]; intros l1 n Hwf Hq Hv ->; simpl.
  - apply wp_ret. eauto using touches_refl, in_place_refl.
  - apply wp_bind. eapply wp_eq.
    { apply (index_eq _ _ (l1 ++ y :: l2) _ y); [done|lia|].
      rewrite Nat2Z.id. by apply list_lookup_middle. }
    destruct (decide (y = x)) as [->|Hne].
    + apply wp_bind. eapply wp_eq; [by apply get_data_eq|].
      pose proof (wf_slice_ok _ _ _ Hwf Hq) as Hok.
      pose proof (view_length _ _ _ Hv) as Hlen.
      rewrite length_app in Hlen. simpl in Hlen.
      destruct (view_nil_ptr _ (data o) _ (length l1) x Hv) as [a Hp];
        [by apply list_lookup_middle|].
      destruct (slice_ok_Some _ _ _ Hok Hp) as (arr & Ha & Hc & Hlc).
      replace (Z.of_nat (length l1) + 1)%Z with (Z.of_nat (S (length l1))) by lia.
      apply wp_bind.
      apply (wp_slices_Delete _ _ (l1 ++ x :: l2) a arr); [done..|lia|lia|].
      intros s' arr' Hp' Ho' Hc' Hl' Hla Htd.
      apply wp_bind. eapply wp_eq.
      { apply set_data_eq. simpl. by eapply lookup_lt_Some. }
      apply wp_ret. split.
      * exists o, (MkQueue s'). simpl. split_and!; [done|done| |].
        -- rewrite Hp. by apply (frame_insert _ _ arr).
        -- intros b Hb. left. congruence.
      * split; [simpl; apply length_insert|].
        exists o, (MkQueue s'). simpl. split_and!; [done| |congruence].
        apply list_lookup_insert_eq. by eapply lookup_lt_Some.
    + replace (Z.of_nat (length l1) + 1)%Z
        with (Z.of_nat (length (l1 ++ [y]))) by (rewrite length_app; simpl; lia).
      apply (IH (l1 ++ [y]) (length l2)); [done|done| |done].
      by rewrite <-app_assoc.
Qed.

Lemma Remove_touches st q o (x : T) :
  wf st → objs st !! q = Some o →
  wp (Remove q x) st (λ _ st', touches q st st' ∧ in_place q st st').
Proof.
  intros Hwf Hq. pose proof (wf_slice_ok _ _ _ Hwf Hq) as Hok.
  destruct (view_Some_of_ok _ _ Hok) as [l Hv]. unfold Remove.
  apply wp_bind. eapply wp_eq; [by apply get_data_eq|].
  apply (Remove_loop_touches st q o x l [] (len (data o)));
    [done|done|done|by erewrite view_length].
Qed.

Lemma Reverse_touches st q o :
  wf st → objs st !! q = Some o →
  wp (Reverse q) st (λ _ st',
    touches q st st' ∧ in_place q st st' ∧ objs st' = objs st).
Proof.
  intros Hwf Hq. pose proof (wf_slice_ok _ _ _ Hwf Hq) as Hok.
  destruct (view_Some_of_ok _ _ Hok) as [l Hv].
  pose proof (view_length _ _ _ Hv) as Hlen.
  destruct (ptr (data o)) as [a|] eqn:Hp.
  - destruct (slice_ok_Some _ _ _ Hok Hp) as (arr & Ha & Hcap & Hlc).
    destruct (Reverse_loop_spec q o a (len (data o)) st arr 0
                (go_len (data o) - 1)) as (arr' & Hrun & Hlen' & _);
      [done|done|done|lia|lia|lia|unfold go_len; lia|].
    unfold Reverse. apply wp_bind. eapply wp_eq; [by apply Size_eq|].
    unfold go_len in *. rewrite Nat2Z.id.
    eapply wp_eq; [done|]. split; [|split; [split|done]].
    + exists o, o. simpl. split_and!; [done| | |eauto].
      * symmetry. by apply list_insert_id.
      * rewrite Hp. by apply (frame_insert _ _ arr).
    + simpl. apply length_insert.
    + by exists o, o.
  - destruct (slice_ok_None _ _ Hok Hp) as (_ & Hl0 & _).
    eapply wp_eq.
    { apply (Reverse_small _ _ l); [by eapply contents_intro|lia]. }
    eauto using touches_refl, in_place_refl.
Qed.

Lemma mutate_touches st q o (m : @mutation T) :
  wf st → objs st !! q = Some o →
  wp (mutate q m) st (λ _ st', touches q st st').
Proof.
  intros Hwf Hq. destruct m as [v| | |v|]; simpl.
  - by apply (Enqueue_touches _ _ o).
  - apply wp_bind. eapply wp_mono; [by apply (Dequeue_touches _ _ o)|].
    intros res st' (? & _). by apply wp_ret.
  - by apply (Clear_touches _ _ o).
  - apply wp_bind. eapply wp_mono; [by apply (Remove_touches _ _ o)|].
    intros res st' (? & _). by apply wp_ret.
  - eapply wp_mono; [by apply (Reverse_touches _ _ o)|].
    by intros _ st' (? & _).
Qed.

(** a slice that no queue owns keeps its elements when a queue is touched *)
Lemma touches_external st st' q r lr :
  wf st → touches q st st' →
  slice_ok (arrays st) r = true → unowned st r →
  view (arrays st) r = Some lr →
  slice_ok (arrays st') r = true ∧ unowned st' r ∧
  view (arrays st') r = Some lr.
Proof.
  intros Hwf (o & o' & Hq & Ho & Hf & Hp) Hok Hun Hv. split_and!.
  - by eapply slice_ok_frame.
  - intros q' o2 a Hq' Hpr Hpo. rewrite Ho in Hq'.
    destruct (decide (q' = q)) as [->|Hne].
    + rewrite list_lookup_insert_eq in Hq' by (by eapply lookup_lt_Some).
      simplify_eq. destruct (Hp _ Hpo) as [Hold|Hnew].
      * by eapply Hun.
      * destruct (slice_ok_Some _ _ _ Hok Hpr) as (? & ?%lookup_lt_Some & _).
        lia.
    + rewrite list_lookup_insert_ne in Hq' by done. by eapply Hun.
  - eapply view_frame; [done..|]. intros a Hpr Heq. by eapply Hun.
Qed.

Lemma mutate_many_external (ms : list (nat * @mutation T)) : ∀ st r lr,
  wf st → slice_ok (arrays st) r = true → unowned st r →
  view (arrays st) r = Some lr →
  Forall (λ p, fst p < length (objs st)) ms →
  ∃ st', mutate_many ms st = Some (tt, st') ∧ wf st' ∧
         view (arrays st') r = Some lr.
Proof.
  induction ms as [|[q m] ms IH]; intros st r lr Hwf Hok Hun Hv Hall; simpl.
  - eauto.
  - apply Forall_cons in Hall as [Hq Hall]. simpl in Hq.
    destruct (lookup_lt_is_Some_2 _ _ Hq) as [o Ho].
    destruct (wf_contents _ _ _ Hwf Ho) as [l Hc].
    destruct (wp_elim _ _ _ (mutate_spec _ _ _ m Hwf Hc))
      as ([] & st1 & Hrun & Hwf1 & _ & Hlen & _).
    pose proof (wp_inv _ _ _ _ _ (mutate_touches _ _ _ m Hwf Ho) Hrun) as Ht.
    destruct (touches_external _ _ _ _ _ Hwf Ht Hok Hun Hv) as (Hok1 & Hun1 & Hv1).
    destruct (IH st1 r lr) as (st2 & Hrun2 & Hwf2 & Hv2); [done..| |].
    { by rewrite Hlen. }
    exists st2. unfold bind. rewrite Hrun. done.
Qed.

End CallFacts.

(** ** Further properties of the package *)

Section FurtherProperties.
Context {T : Type} `{!Elem T} `{!Growth}.
Implicit Types (st : store T) (s d r : slice) (l : list T) (q c a : nat).


(** X2. Two queues with the same elements answer the same calls with the
    same values, whatever their arrays, offsets and capacities, and hold
    the same elements afterwards. *)
Theorem same_elements_same_answers st1 q1 st2 q2 l (cs : list (@call T)) :
  wf st1 → wf st2 → contents st1 q1 = Some l → contents st2 q2 = Some l →
  ∃ os st1' st2',
    calls q1 cs st1 = Some (os, st1') ∧ calls q2 cs st2 = Some (os, st2') ∧
    contents st1' q1 = contents st2' q2.
Proof.
  intros Hwf1 Hwf2 Hc1 Hc2.
  destruct (wp_elim _ _ _ (calls_model q1 cs st1 l Hwf1 Hc1))
    as (os1 & st1' & Hrun1 & -> & _ & Hc1' & _).
  destruct (wp_elim _ _ _ (calls_model q2 cs st2 l Hwf2 Hc2))
    as (os2 & st2' & Hrun2 & -> & _ & Hc2' & _).
  eexists _, st1', st2'. split_and!; [done..|]. by rewrite Hc1', Hc2'.
Qed.

(** X3. No call on a queue of the store panics, whatever calls came before
    it, and neither does a Copy after them. *)
Theorem no_panic st q (cs : list (@call T)) :
  wf st → q < length (objs st) →
  ∃ os st', calls q cs st = Some (os, st') ∧
            ∃ c st'', Copy q st' = Some (c, st'').
Proof.
  intros Hwf Hq. destruct (lookup_lt_is_Some_2 _ _ Hq) as [o Ho].
  destruct (wf_contents _ _ _ Hwf Ho) as [l Hc].
  destruct (wp_elim _ _ _ (calls_model q cs st l Hwf Hc))
    as (os & st' & Hrun & _ & _ & Hc' & _).
  exists os, st'. split; [done|]. eexists _, _. by eapply Copy_eq.
Qed.

(** X4. In every store that a client builds with NewQueue, the mutating
    methods, Copy and ToSlice, every queue has its elements within one
    backing array and no two queues share a backing array. *)
Theorem reachable_invariant st :
  reachable st →
  (∀ q o, objs st !! q = Some o →
     is_Some (contents st q) ∧ len (data o) ≤ cap (data o)) ∧
  (∀ q1 q2 o1 o2 a, objs st !! q1 = Some o1 → objs st !! q2 = Some o2 →
     ptr (data o1) = Some a → ptr (data o2) = Some a → q1 = q2).
Proof.
  intros Hwf%reachable_wf. split.
  - intros q o Hq. split; [by eapply wf_contents|].
    pose proof (wf_slice_ok _ _ _ Hwf Hq) as Hok.
    destruct (ptr (data o)) as [a|] eqn:Hp.
    + by destruct (slice_ok_Some _ _ _ Hok Hp) as (? & ? & ? & ?).
    + destruct (slice_ok_None _ _ Hok Hp) as (? & ? & ?). lia.
  - intros. by eapply (wf_no_alias st).
Qed.

(** X5. Calls on one queue leave the elements and the size of every other
    queue of the store as they were. *)
Theorem queues_do_not_interfere st q q' l' (cs : list (@call T)) :
  wf st → q ≠ q' → q < length (objs st) → contents st q' = Some l' →
  ∃ os st', calls q cs st = Some (os, st') ∧
            contents st' q' = Some l' ∧
            Size q' st' = Some (Z.of_nat (length l'), st').
Proof.
  intros Hwf Hne Hq Hc'. destruct (lookup_lt_is_Some_2 _ _ Hq) as [o Ho].
  destruct (wf_contents _ _ _ Hwf Ho) as [l Hc].
  destruct (wp_elim _ _ _ (calls_model q cs st l Hwf Hc))
    as (os & st' & Hrun & _ & _ & _ & _ & Hk).
  exists os, st'. assert (contents st' q' = Some l') by eauto.
  split_and!; [done|done|by apply Size_contents].
Qed.

(** X6. The slice that ToSlice returned keeps its elements, whatever
    mutations the queues of the store go through afterwards. *)
Theorem ToSlice_is_snapshot st q l (ms : list (nat * @mutation T)) :
  wf st → contents st q = Some l →
  Forall (λ p, fst p < length (objs st)) ms →
  ∃ r st1 st2,
    ToSlice q st = Some (r, st1) ∧
    mutate_many ms st1 = Some (tt, st2) ∧
    view (arrays st2) r = Some l.
Proof.
  intros Hwf Hc Hall.
  destruct (wp_elim _ _ _ (ToSlice_spec _ _ _ Hwf Hc))
    as (r & st1 & Hrun & -> & -> & Hwf1 & Hv1 & _).
  destruct (mutate_many_external ms
              (Store (arrays st ++ [l]) (objs st))
              (Slice (Some (length (arrays st))) 0 (length l) (length l)) l)
    as (st2 & Hrun2 & _ & Hv2); [done| | |done|done|].
  - eapply slice_ok_intro; simpl; [done|by apply list_lookup_middle|done..].
  - intros q' o a Hq' [= <-] Hp. simpl in Hq'.
    destruct (slice_ok_Some _ _ _ (wf_slice_ok _ _ _ Hwf Hq') Hp)
      as (? & ?%lookup_lt_Some & _). lia.
  - by eexists _, _, st2.
Qed.


Lemma cons_snoc (x : T) l : ∃ l1 y, x :: l = l1 ++ [y].
Proof.
  revert x. induction l as [|z l IH]; intros x.
  - by exists [], x.
  - destruct (IH z) as (l1 & y & ->). by exists (x :: l1), y.
Qed.

(** X8. Reverse exchanges the two ends: Front then returns what PeekLast
    returned before and PeekLast what Front returned, errors included, and
    Size returns what it returned. *)
Theorem Reverse_swaps_ends st q l (hd tl : T * error) :
  wf st → contents st q = Some l →
  Front q st = Some (hd, st) → PeekLast q st = Some (tl, st) →
  ∃ st', Reverse q st = Some (tt, st') ∧
         Front q st' = Some (tl, st') ∧ PeekLast q st' = Some (hd, st') ∧
         Size q st' = Some (Z.of_nat (length l), st').
Proof.
  intros Hwf Hc Hf Hp.
  destruct (wp_elim _ _ _ (Reverse_spec _ _ _ Hwf Hc))
    as ([] & st' & Hrun & _ & Hc' & _).
  exists st'. split; [done|].
  assert (Size q st' = Some (Z.of_nat (length l), st')) as Hs.
  { rewrite (Size_contents _ _ (reverse l)) by done. by rewrite length_reverse. }
  destruct l as [|x l0].
  - rewrite (Front_empty _ _ Hc) in Hf. rewrite (PeekLast_empty _ _ Hc) in Hp.
    simplify_eq. split_and!; [by apply Front_empty|by apply PeekLast_empty|done].
  - rewrite (Front_cons _ _ _ _ Hc) in Hf. simplify_eq.
    split_and!; [| |done].
    + destruct (cons_snoc x l0) as (l1 & y & Heq). rewrite Heq in Hc, Hc'.
      rewrite (PeekLast_snoc _ _ _ _ Hc) in Hp. simplify_eq.
      rewrite reverse_snoc in Hc'. by apply (Front_cons _ _ y (reverse l1)).
    + rewrite reverse_cons in Hc'. by apply (PeekLast_snoc _ _ (reverse l0) x).
Qed.

(** X9. Front returns what the next Dequeue returns, value and error, and
    leaves the store as it was. *)
Theorem Front_is_next_Dequeue st q l :
  wf st → contents st q = Some l →
  ∃ res st', Front q st = Some (res, st) ∧ Dequeue q st = Some (res, st').
Proof.
  intros Hwf Hc. destruct l as [|x l].
  - eexists _, _. split; [by apply Front_empty|by apply Dequeue_empty].
  - destruct (wp_elim _ _ _ (Dequeue_cons _ _ _ _ Hwf Hc))
      as (res & st' & Hrun & -> & _).
    eexists _, _. split; [by apply (Front_cons _ _ x l)|done].
Qed.


(** X11. Dequeue, Remove and Reverse work in place: none of them
    allocates an array or moves the queue to another array; Dequeue does
    not write to the array at all, and Reverse leaves the header of the
    queue as it was. *)
Theorem in_place_methods st q o :
  wf st → objs st !! q = Some o →
  (∃ res st', Dequeue q st = Some (res, st') ∧
              in_place q st st' ∧ arrays st' = arrays st) ∧
  (∀ x : T, ∃ b st', Remove q x st = Some (b, st') ∧ in_place q st st') ∧
  (∃ st', Reverse q st = Some (tt, st') ∧
          in_place q st st' ∧ objs st' = objs st).
Proof.
  intros Hwf Hq. split_and!.
  - destruct (wp_elim _ _ _ (Dequeue_touches _ _ _ Hwf Hq))
      as (res & st' & Hrun & _ & ? & ?). eauto.
  - intros x. destruct (wp_elim _ _ _ (Remove_touches _ _ _ x Hwf Hq))
      as (b & st' & Hrun & _ & ?). eauto.
  - destruct (wp_elim _ _ _ (Reverse_touches _ _ _ Hwf Hq))
      as ([] & st' & Hrun & _ & ? & ?). eauto.
Qed.

(** X12. A copy answers every sequence of calls as its source answers it
    from the same store. *)
Theorem Copy_same_answers st q l :
  wf st → contents st q = Some l →
  ∃ c st1,
    Copy q st = Some (c, st1) ∧
    ∀ cs : list (@call T), ∃ os st2 st3,
      calls c cs st1 = Some (os, st2) ∧ calls q cs st1 = Some (os, st3).
Proof.
  intros Hwf Hc.
  destruct (wp_elim _ _ _ (Copy_spec _ _ _ Hwf Hc))
    as (c & st1 & Hrun & _ & Hwf1 & Hcc & Hk).
  exists c, st1. split; [done|]. intros cs.
  destruct (wp_elim _ _ _ (calls_model c cs st1 l Hwf1 Hcc))
    as (os1 & st2 & Hrun1 & -> & _).
  destruct (wp_elim _ _ _ (calls_model q cs st1 l Hwf1 (Hk _ _ Hc)))
    as (os2 & st3 & Hrun2 & -> & _).
  eauto.
Qed.

(** X13. NewQueue returns a queue that was not in the store, without
    elements, and leaves the elements of the queues of the store as they
    were. *)
Theorem NewQueue_is_fresh st :
  wf st →
  ∃ q st', NewQueue st = Some (q, st') ∧ wf st' ∧
           objs st !! q = None ∧ contents st' q = Some [] ∧
           ∀ q' l, contents st q' = Some l → contents st' q' = Some l.
Proof.
  intros Hwf.
  destruct (wp_elim _ _ _ (NewQueue_spec _ Hwf))
    as (q & st' & Hrun & -> & ? & ? & ?).
  eexists _, _. split_and!; [done|done| |done|done].
  by apply lookup_ge_None.
Qed.

End FurtherProperties.

(** ** The further properties at work *)


Lemma same_elements_same_answers_witness :
  wf demo_store ∧ wf demo_store_2 ∧
  contents demo_store 1 = Some [20; 30]%Z ∧
  contents demo_store_2 0 = Some [20; 30]%Z ∧
  ∃ os st1' st2',
    calls 1 [CEnqueue 7%Z; CRead RToSlice; CRead RDequeue] demo_store
    = Some (os, st1') ∧
    calls 0 [CEnqueue 7%Z; CRead RToSlice; CRead RDequeue] demo_store_2
    = Some (os, st2') ∧
    contents st1' 1 = contents st2' 0.
Proof.
  do 4 (split; [reflexivity|]).
  exact (same_elements_same_answers demo_store 1 demo_store_2 0 [20; 30]%Z
           [CEnqueue 7%Z; CRead RToSlice; CRead RDequeue]
           eq_refl eq_refl eq_refl eq_refl).
Defined.

Lemma no_panic_witness :
  wf demo_store ∧ 1 < length (objs demo_store) ∧
  ∃ os st',
    calls 1 [CRead RDequeue; CRead RDequeue; CRead RDequeue; CRead RPeekLast;
             CRemove 5%Z; CReverse] demo_store
    = Some (os, st') ∧
    ∃ c st'', Copy 1 st' = Some (c, st'').
Proof.
  split; [reflexivity|]. split; [simpl; lia|].
  apply (no_panic demo_store 1); [reflexivity|simpl; lia].
Defined.

Lemma reachable_invariant_witness :
  let st : store Z := Store [[5%Z]] [MkQueue (Slice (Some 0) 0 1 1)] in
  reachable st ∧
  (∀ q o, objs st !! q = Some o →
     is_Some (contents st q) ∧ len (data o) ≤ cap (data o)) ∧
  (∀ q1 q2 o1 o2 a, objs st !! q1 = Some o1 → objs st !! q2 = Some o2 →
     ptr (data o1) = Some a → ptr (data o2) = Some a → q1 = q2).
Proof.
  intros st.
  assert (reachable st) as Hr.
  { apply (reach_mutate (Store [] [MkQueue nil_slice]) 0 (MEnqueue 5%Z) tt);
      [|reflexivity].
    apply (reach_NewQueue empty_store 0); [apply reach_empty|reflexivity]. }
  split; [exact Hr|]. exact (reachable_invariant st Hr).
Defined.

Lemma queues_do_not_interfere_witness :
  wf demo_store ∧ 0 ≠ 1 ∧ 0 < length (objs demo_store) ∧
  contents demo_store 1 = Some [20; 30]%Z ∧
  ∃ os st',
    calls 0 [CEnqueue 1%Z; CEnqueue 2%Z; CReverse; CClear] demo_store
    = Some (os, st') ∧
    contents st' 1 = Some [20; 30]%Z ∧
    Size 1 st' = Some (2%Z, st').
Proof.
  split; [reflexivity|]. split; [discriminate|]. split; [simpl; lia|].
  split; [reflexivity|].
  apply (queues_do_not_interfere demo_store 0 1 [20; 30]%Z);
    [reflexivity|discriminate|simpl; lia|reflexivity].
Defined.

Lemma ToSlice_is_snapshot_witness :
  wf demo_store ∧ contents demo_store 1 = Some [20; 30]%Z ∧
  ∃ r st1 st2,
    ToSlice 1 demo_store = Some (r, st1) ∧
    mutate_many [(1, MEnqueue 7%Z); (1, MReverse); (0, MEnqueue 9%Z);
                 (1, MRemove 20%Z); (1, MClear)] st1
    = Some (tt, st2) ∧
    view (arrays st2) r = Some [20; 30]%Z.
Proof.
  split; [reflexivity|]. split; [reflexivity|].
  apply (ToSlice_is_snapshot demo_store 1 [20; 30]%Z);
    [reflexivity|reflexivity|].
  repeat constructor.
Defined.


Lemma Reverse_swaps_ends_witness :
  wf demo_store ∧ contents demo_store 1 = Some [20; 30]%Z ∧
  Front 1 demo_store = Some ((20%Z, nil_error), demo_store) ∧
  PeekLast 1 demo_store = Some ((30%Z, nil_error), demo_store) ∧
  ∃ st', Reverse 1 demo_store = Some (tt, st') ∧
         Front 1 st' = Some ((30%Z, nil_error), st') ∧
         PeekLast 1 st' = Some ((20%Z, nil_error), st') ∧
         Size 1 st' = Some (2%Z, st').
Proof.
  do 4 (split; [reflexivity|]).
  exact (Reverse_swaps_ends demo_store 1 [20; 30]%Z (20%Z, nil_error)
           (30%Z, nil_error) eq_refl eq_refl eq_refl eq_refl).
Defined.

Lemma Front_is_next_Dequeue_witness :
  wf demo_store ∧ contents demo_store 1 = Some [20; 30]%Z ∧
  ∃ res st', Front 1 demo_store = Some (res, demo_store) ∧
             Dequeue 1 demo_store = Some (res, st').
Proof.
  split; [reflexivity|]. split; [reflexivity|].
  exact (Front_is_next_Dequeue demo_store 1 [20; 30]%Z eq_refl eq_refl).
Defined.


Lemma in_place_methods_witness :
  wf demo_store ∧
  objs demo_store !! 1 = Some (MkQueue (Slice (Some 0) 1 2 3)) ∧
  (∃ res st', Dequeue 1 demo_store = Some (res, st') ∧
              in_place 1 demo_store st' ∧ arrays st' = arrays demo_store) ∧
  (∀ x : Z, ∃ b st', Remove 1 x demo_store = Some (b, st')
                     ∧ in_place 1 demo_store st') ∧
  (∃ st', Reverse 1 demo_store = Some (tt, st') ∧
          in_place 1 demo_store st' ∧ objs st' = objs demo_store).
Proof.
  split; [reflexivity|]. split; [reflexivity|].
  exact (in_place_methods demo_store 1 (MkQueue (Slice (Some 0) 1 2 3))
           eq_refl eq_refl).
Defined.

Lemma Copy_same_answers_witness :
  wf demo_store ∧ contents demo_store 1 = Some [20; 30]%Z ∧
  ∃ c st1,
    Copy 1 demo_store = Some (c, st1) ∧
    ∀ cs : list (@call Z), ∃ os st2 st3,
      calls c cs st1 = Some (os, st2) ∧ calls 1 cs st1 = Some (os, st3).
Proof.
  split; [reflexivity|]. split; [reflexivity|].
  exact (Copy_same_answers demo_store 1 [20; 30]%Z eq_refl eq_refl).
Defined.

Lemma NewQueue_is_fresh_witness :
  wf demo_store ∧
  ∃ q st', NewQueue demo_store = Some (q, st') ∧ wf st' ∧
           objs demo_store !! q = None ∧ contents st' q = Some [] ∧
           ∀ q' l, contents demo_store q' = Some l → contents st' q' = Some l.
Proof.
  split; [reflexivity|]. exact (NewQueue_is_fresh demo_store eq_refl).
Defined.
